(** * TradutorAPI: the Streamlit translation page of [app.py]

    A shallow embedding of [app.py] and the properties of its glue code:
    label formatting, option lists, default indices, the memoised catalog
    loader and the submit branch of [render_app].

    Python values are modelled as the code has them: a [str] is the list of
    its Unicode code points, a [dict] in iteration order is an association
    list, an exception is a value carried by the [Raise] outcome, and the
    Streamlit calls and the calls to the translation provider are recorded,
    in order, in a log held in the program state. *)

From Stdlib Require Import NArith Ascii String.
From stdpp Require Import base tactics option list numbers sorting.

Local Open Scope N_scope.

(** ** Python strings *)

(** A Python [str]: the sequence of its code points. *)
Definition str := list N.

Fixpoint bytes_of_string (s : string) : list N :=
  match s with
  | EmptyString => []
  | String a s' => N_of_ascii a :: bytes_of_string s'
  end.

(** Literals of the source file are UTF-8 text; [utf8_decode] turns their
    bytes into code points.  [acc] holds the bits read so far of a
    multi-byte sequence and [need] the continuation bytes still expected. *)
Fixpoint utf8_decode (acc : N) (need : nat) (bs : list N) : str :=
  match bs with
  | [] => []
  | b :: bs' =>
    match need with
    | O =>
      if b <? 0x80 then b :: utf8_decode 0 0 bs'
      else if b <? 0xE0 then utf8_decode (N.land b 0x1F) 1 bs'
      else if b <? 0xF0 then utf8_decode (N.land b 0x0F) 2 bs'
      else utf8_decode (N.land b 0x07) 3 bs'
    | S n =>
      let acc' := N.lor (N.shiftl acc 6) (N.land b 0x3F) in
      match n with
      | O => acc' :: utf8_decode 0 0 bs'
      | S _ => utf8_decode acc' n bs'
      end
    end
  end.

Definition lit (s : string) : str := utf8_decode 0 0 (bytes_of_string s).

(** [a == b] on [str]. *)
Definition str_eqb (a b : str) : bool := bool_decide (a = b).

(** [a < b] on [str]: lexicographic on code points, a proper prefix being
    smaller. *)
Fixpoint str_ltb (a b : str) : bool :=
  match a, b with
  | _, [] => false
  | [], _ :: _ => true
  | x :: a', y :: b' =>
    if x <? y then true else if y <? x then false else str_ltb a' b'
  end.

(** [str.isspace] for one code point: the white space set of CPython. *)
Definition is_whitespace (c : N) : bool :=
  ((0x09 <=? c) && (c <=? 0x0D)) || ((0x1C <=? c) && (c <=? 0x20))
  || (c =? 0x85) || (c =? 0xA0) || (c =? 0x1680)
  || ((0x2000 <=? c) && (c <=? 0x200A))
  || (c =? 0x2028) || (c =? 0x2029) || (c =? 0x202F) || (c =? 0x205F)
  || (c =? 0x3000).

Fixpoint lstrip (s : str) : str :=
  match s with
  | [] => []
  | c :: s' => if is_whitespace c then lstrip s' else s
  end.

Definition rstrip (s : str) : str := reverse (lstrip (reverse s)).

(** [s.strip()]. *)
Definition strip (s : str) : str := rstrip (lstrip s).

(** [not s]: the empty string is the only false one. *)
Definition str_is_empty (s : str) : bool :=
  match s with [] => true | _ :: _ => false end.

(** [s.replace(old, new)] for one-character [old] and [new], the only form
    [app.py] uses. *)
Definition replace (old new : N) (s : str) : str :=
  map (fun c => if c =? old then new else c) s.

(** ** Case mappings

    [str.title] reads the Unicode character database of the interpreter:
    which code points are cased or case-ignorable, and the full title-case
    and lower-case mappings (a mapping may be several code points long).
    The database is a parameter of the model. *)
Record case_data := CaseData {
  is_cased : N -> bool;
  is_case_ignorable : N -> bool;
  to_title_full : N -> list N;
  to_lower_full : N -> list N
}.

Definition is_ascii_upper (c : N) : bool := (0x41 <=? c) && (c <=? 0x5A).
Definition is_ascii_lower (c : N) : bool := (0x61 <=? c) && (c <=? 0x7A).
Definition is_ascii_letter (c : N) : bool := is_ascii_upper c || is_ascii_lower c.
Definition ascii_upper (c : N) : N := if is_ascii_lower c then c - 0x20 else c.
Definition ascii_lower (c : N) : N := if is_ascii_upper c then c + 0x20 else c.
Definition is_ascii (c : N) : bool := c <? 0x80.

(** The part of the database the examples below need: Basic Latin
    (U+0000..U+007F), and two code points beyond it, U+01F0 (small j with
    caron, whose title case is the two code points U+004A U+030C) and
    U+030C (combining caron: not cased, case-ignorable).  The entries are
    those of the Unicode database; code points outside the part are left
    without case here. *)
Definition ucd_fragment : case_data := {|
  is_cased c := is_ascii_letter c || (c =? 0x1F0);
  is_case_ignorable c :=
    (c =? 0x27) || (c =? 0x2E) || (c =? 0x3A) || (c =? 0x5E) || (c =? 0x60)
    || (c =? 0x30C);
  to_title_full c := if c =? 0x1F0 then [0x4A; 0x30C] else [ascii_upper c];
  to_lower_full c := [ascii_lower c]
|}.

(** A database is exact on Basic Latin when its entries for the code points
    below U+0080 are those of ASCII. *)
Definition basic_latin_entry (ucd : case_data) (c : N) : bool :=
  bool_decide (is_cased ucd c = is_ascii_letter c)
  && bool_decide (to_title_full ucd c = [ascii_upper c])
  && bool_decide (to_lower_full ucd c = [ascii_lower c]).

Definition basic_latin_exact (ucd : case_data) : bool :=
  forallb (fun n => basic_latin_entry ucd (N.of_nat n)) (seq 0 128).

Section Title.
Context (ucd : case_data).

(** First code point of [s] that is not case-ignorable, if any. *)
Fixpoint skip_case_ignorable (s : str) : option N :=
  match s with
  | [] => None
  | c :: s' => if is_case_ignorable ucd c then skip_case_ignorable s' else Some c
  end.

(** [handle_capital_sigma]: [before] holds the code points that precede
    the sigma, nearest first, and [after] those that follow it. *)
Definition handle_capital_sigma (before after : str) : N :=
  let final_sigma :=
    match skip_case_ignorable before with
    | Some c =>
      is_cased ucd c &&
      match skip_case_ignorable after with
      | Some c' => negb (is_cased ucd c')
      | None => true
      end
    | None => false
    end in
  if final_sigma then 0x3C2 else 0x3C3.

Definition lower_ucs4 (before : str) (c : N) (after : str) : list N :=
  if c =? 0x3A3 then [handle_capital_sigma before after]
  else to_lower_full ucd c.

(** The loop of [str.title]: a code point is lower-cased when the one
    before it is cased and title-cased otherwise. *)
Fixpoint do_title (before : str) (previous_is_cased : bool) (s : str) : str :=
  match s with
  | [] => []
  | c :: rest =>
    (if previous_is_cased then lower_ucs4 before c rest
     else to_title_full ucd c)
    ++ do_title (c :: before) (is_cased ucd c) rest
  end.

Definition title (s : str) : str := do_title [] false s.

(** [format_language_name], lines 46-48. *)
Definition format_language_name (raw_name : str) : str :=
  title (replace 0x5F 0x20 raw_name).

End Title.

(** [str.title] over ASCII alone: one code point out for each one in. *)
Fixpoint ascii_do_title (previous_is_cased : bool) (s : str) : str :=
  match s with
  | [] => []
  | c :: rest =>
    (if previous_is_cased then ascii_lower c else ascii_upper c)
    :: ascii_do_title (is_ascii_letter c) rest
  end.

(** ** Sorting

    [sorted(iterable, key=...)] is a stable sort that compares keys with
    [<] only.  It is modelled by stable insertion: an element is placed
    before the first element whose key is not smaller than its own, so
    elements with equal keys keep the order in which they were met. *)
Section Sorted.
Context {A : Type} (key : A -> str).

Fixpoint insert_by_key (x : A) (l : list A) : list A :=
  match l with
  | [] => [x]
  | y :: l' =>
    if str_ltb (key y) (key x) then y :: insert_by_key x l'
    else x :: y :: l'
  end.

Definition sorted (l : list A) : list A := foldr insert_by_key [] l.

(** Ascending order of keys: no element has a key smaller than the key of
    an element before it. *)
Definition key_le (a b : A) : Prop := str_ltb (key b) (key a) = false.

End Sorted.

(** ** Language options *)

(** A language option of a select box: the tuple [(label, code)]. *)
Definition language_option : Type := str * str.

(** The catalog [{name: code}], in the iteration order of the dict.  A
    dict has no two entries with one key; nothing below depends on it. *)
Definition catalog : Type := list (str * str).

Definition auto_option : language_option :=
  (lit "Detectar automaticamente", lit "auto").

(** [find_index], lines 98-102; [idx] is the counter of [enumerate]. *)
Fixpoint find_index_from (idx : nat) (options : list language_option)
    (code : str) : nat :=
  match options with
  | [] => 0%nat
  | (_, opt_code) :: rest =>
    if str_eqb opt_code code then idx
    else find_index_from (S idx) rest code
  end.

Definition find_index (options : list language_option) (code : str) : nat :=
  find_index_from 0 options code.

Section Options.
Context (ucd : case_data).

(** Lines 61-64: the formatted items, sorted by label. *)
Definition sorted_items (supported : catalog) : list language_option :=
  sorted fst (map (fun '(name, code) => (format_language_name ucd name, code))
                  supported).

(** Lines 66-68. *)
Definition language_options (supported : catalog)
    : list language_option * list language_option :=
  let origin_options := auto_option :: sorted_items supported in
  let target_options := sorted_items supported in
  (origin_options, target_options).

End Options.

(** ** Effects: exceptions, the provider, Streamlit *)

(** An instance of [Exception]; [exn_is_TypeError] is
    [isinstance(e, TypeError)]. *)
Record exn := Exn { exn_is_TypeError : bool; exn_text : str }.

Inductive result (A : Type) : Type :=
| Ok (a : A)
| Raise (e : exn).
Arguments Ok {A} a.
Arguments Raise {A} e.

(** What one render pass does, in order: the Streamlit calls ([St...]) and
    the calls that reach the translation provider ([Gt...]). *)
Inductive event : Type :=
| StSetPageConfig (page_title page_icon layout initial_sidebar_state : str)
| StTitle (body : str)
| StCaption (body : str)
| StDivider
| StSubheader (body : str)
| StTextAreaInput (label placeholder : str) (height : N)
| StWrite (body : str)
| StColumns (spec : N)
| StSelectbox (label : str) (options : list language_option) (index : nat)
| StButton (label : str)
| StWarning (body : str)
| StError (body : str)
| StInfo (body : str)
| StSuccess (body : str)
| StTextAreaDisabled (label value : str) (height : N)
| StSpinner (text : str)
| StExpander (label : str)
| StException (exc : exn)
| GtLanguagesStatic
| GtLanguagesInstance
| GtTranslate (text source target : str).

Definition is_translate_call (e : event) : bool :=
  match e with GtTranslate _ _ _ => true | _ => false end.

Definition is_catalog_call (e : event) : bool :=
  match e with GtLanguagesStatic | GtLanguagesInstance => true | _ => false end.

(** What the user did in the browser before a render pass: the content of
    the text area, the entry picked in each select box ([None]: nothing
    picked yet, the widget shows its default index) and whether the button
    was pressed. *)
Record ui_input := UiInput {
  text_area_value : str;
  origin_choice : option nat;
  target_choice : option nat;
  button_clicked : bool
}.

Section App.
(** The state of the outside world the provider answers from. *)
Context {W : Type}.

(** [deep_translator.GoogleTranslator], an opaque collaborator:
    [languages_static] is [GoogleTranslator.get_supported_languages(as_dict=True)],
    [languages_instance] is
    [GoogleTranslator(source="auto", target="en").get_supported_languages(as_dict=True)]
    and [translate text source target] is
    [GoogleTranslator(source=source, target=target).translate(text)]. *)
Record provider := Provider {
  languages_static : W -> result catalog * W;
  languages_instance : W -> result catalog * W;
  translate : str -> str -> str -> W -> result str * W
}.

(** The process: the world, the one slot of [st.cache_data] that
    [get_supported_languages] owns, and the log. *)
Record state := State {
  world : W;
  cache : option catalog;
  log : list event
}.

Definition M (A : Type) : Type := state -> result A * state.

Definition ret {A} (a : A) : M A := fun s => (Ok a, s).

Definition bind {A B} (m : M A) (k : A -> M B) : M B := fun s =>
  match m s with
  | (Ok a, s') => k a s'
  | (Raise e, s') => (Raise e, s')
  end.

Definition raise {A} (e : exn) : M A := fun s => (Raise e, s).

(** [try: body / except C as exc: handler exc], where [catches e] is
    [isinstance(e, C)]. *)
Definition try_except {A} (body : M A) (catches : exn -> bool)
    (handler : exn -> M A) : M A := fun s =>
  match body s with
  | (Ok a, s') => (Ok a, s')
  | (Raise e, s') => if catches e then handler e s' else (Raise e, s')
  end.

Definition emit (e : event) : M unit := fun s =>
  (Ok tt, {| world := world s; cache := cache s; log := log s ++ [e] |}).

(** [s] with the events [new] added to its log. *)
Definition logged (s : state) (new : list event) : state :=
  {| world := world s; cache := cache s; log := log s ++ new |}.

Definition call {A} (e : event) (f : W -> result A * W) : M A := fun s =>
  let '(r, w) := f (world s) in
  (r, {| world := w; cache := cache s; log := log s ++ [e] |}).

End App.

Arguments provider : clear implicits.
Arguments state : clear implicits.
Arguments M : clear implicits.

Notation "'let*' x ':=' m 'in' k" := (bind m (fun x => k))
  (at level 10, x pattern, m at level 100, k at level 200).
Notation "m ';;' k" := (bind m (fun _ => k))
  (at level 100, k at level 200, right associativity).

(** ** The program *)

(** The longer texts of the page. *)
Definition header_caption : str :=
  lit "Traduza frases e parágrafos entre diversos idiomas com o Google Translator via deep-translator.".
Definition text_missing : str :=
  lit "Por favor, digite um texto para traduzir.".
Definition target_is_auto : str :=
  lit "O idioma de destino não pode ser 'auto'. Selecione um idioma específico.".
Definition same_languages : str :=
  lit "Os idiomas de origem e destino são iguais. Exibindo o texto original.".
Definition translate_failed : str :=
  lit "Ocorreu um erro ao traduzir. Verifique sua conexão com a internet e tente novamente.".

Section Program.
Context {W : Type} (ucd : case_data) (P : provider W).

(** [st.cache_data] on a function without arguments: a stored value is
    returned without running the function; otherwise the function runs
    and its value, when it returns one, is stored.  Nothing is stored when
    it raises, and nothing in [app.py] clears the store. *)
Definition cache_data (f : M W catalog) : M W catalog := fun s =>
  match cache s with
  | Some d => (Ok d, s)
  | None =>
    match f s with
    | (Ok d, s') =>
      (Ok d, {| world := world s'; cache := Some d; log := log s' |})
    | (Raise e, s') => (Raise e, s')
    end
  end.

(** [configure_page], lines 18-25. *)
Definition configure_page : M W unit :=
  emit (StSetPageConfig (lit "Tradutor de Textos") (lit "🌐")
                        (lit "centered") (lit "collapsed")).

(** The body of [get_supported_languages], lines 38-43. *)
Definition get_supported_languages_body : M W catalog :=
  try_except
    (call GtLanguagesStatic (languages_static P))
    exn_is_TypeError
    (fun _ => call GtLanguagesInstance (languages_instance P)).

(** [get_supported_languages] as decorated on line 28. *)
Definition get_supported_languages : M W catalog :=
  cache_data get_supported_languages_body.

(** [build_language_options], lines 51-68. *)
Definition build_language_options
    : M W (list language_option * list language_option) :=
  let* supported := get_supported_languages in
  ret (language_options ucd supported).

(** [translate_text], lines 71-78. *)
Definition translate_text (text source_code target_code : str) : M W str :=
  call (GtTranslate text source_code target_code)
       (translate P text source_code target_code).

(** [render_header], lines 81-85. *)
Definition render_header : M W unit :=
  emit (StTitle (lit "Tradutor de Textos"));;
  emit (StCaption header_caption);;
  emit StDivider.

(** The value of a select box: the entry at the user's pick, or at
    [index] when nothing was picked (a pick beyond the list counts as
    none); [None] when [options] is empty. *)
Definition picked (options : list language_option) (index : nat)
    (choice : option nat) : option language_option :=
  match choice with
  | Some i => if decide (i < length options)%nat then options !! i
              else options !! index
  | None => options !! index
  end.

(** [st.selectbox]. *)
Definition st_selectbox (label : str) (options : list language_option)
    (index : nat) (choice : option nat) : M W (option language_option) :=
  emit (StSelectbox label options index);;
  ret (picked options index choice).

(** [label, code = value]: unpacking [None] raises [TypeError]. *)
Definition unpack (value : option language_option) : M W language_option :=
  match value with
  | Some o => ret o
  | None =>
    raise (Exn true (lit "cannot unpack non-iterable NoneType object"))
  end.

(** Lines 160-163. *)
Definition render_footer : M W unit :=
  emit StDivider;;
  emit (StCaption (lit "Feito com ❤️ usando Streamlit e deep-translator (GoogleTranslator).")).

(** Lines 148-158: the guarded call; [except Exception] catches every
    [exn]. *)
Definition translate_guarded (text_to_translate source_code target_code : str)
    : M W unit :=
  try_except
    (emit (StSpinner (lit "Traduzindo..."));;
     let* translated :=
       translate_text text_to_translate source_code target_code in
     emit (StSuccess (lit "Tradução concluída!"));;
     emit (StTextAreaDisabled (lit "Tradução") translated 160))
    (fun _ => true)
    (fun exc =>
       emit (StError translate_failed);;
       emit (StExpander (lit "Detalhes técnicos"));;
       emit (StException exc)).

(** Lines 134-163: what follows the button.  A branch that ends in
    [return] leaves out the footer. *)
Definition on_button (translate_clicked : bool)
    (text_to_translate source_code target_code : str) : M W unit :=
  if translate_clicked then
    if str_is_empty (strip text_to_translate) then
      emit (StWarning text_missing)
    else if str_eqb target_code (lit "auto") then
      emit (StError target_is_auto)
    else if negb (str_eqb source_code (lit "auto"))
            && str_eqb source_code target_code then
      emit (StInfo same_languages);;
      emit (StTextAreaDisabled (lit "Tradução") text_to_translate 160)
    else
      translate_guarded text_to_translate source_code target_code;;
      render_footer
  else render_footer.

(** [render_app], lines 88-163. *)
Definition render_app (input : ui_input) : M W unit :=
  render_header;;
  let* (origin_options, target_options) := build_language_options in
  let default_source := lit "auto" in
  let default_target := lit "en" in
  emit (StSubheader (lit "Texto para traduzir"));;
  emit (StTextAreaInput (lit "")
          (lit "Digite ou cole aqui o texto que deseja traduzir...") 160);;
  let text_to_translate := text_area_value input in
  emit (StWrite (lit ""));;
  emit (StColumns 2);;
  let* source :=
    st_selectbox (lit "Idioma de origem") origin_options
      (find_index origin_options default_source) (origin_choice input) in
  let* (source_label, source_code) := unpack source in
  let* target :=
    st_selectbox (lit "Idioma de destino") target_options
      (find_index target_options default_target) (target_choice input) in
  let* (target_label, target_code) := unpack target in
  emit (StWrite (lit ""));;
  emit (StButton (lit "Traduzir"));;
  let translate_clicked := button_clicked input in
  on_button translate_clicked text_to_translate source_code target_code.

(** [main], lines 166-169. *)
Definition main (input : ui_input) : M W unit :=
  configure_page;;
  render_app input.

(** The life of the process: one run of [main] per user interaction.  A
    run that ends in an exception ends that pass only. *)
Definition run_passes (inputs : list ui_input) (s : state W) : state W :=
  foldl (fun s input => (main input s).2) s inputs.

End Program.

(** ** Observations on a log *)

Definition is_disabled_text_area (e : event) : bool :=
  match e with StTextAreaDisabled _ _ _ => true | _ => false end.

(** The text shown in the read-only "translation" area by the events
    [new], if one was rendered. *)
Definition displayed_output (new : list event) : option str :=
  match filter (fun e => is_disabled_text_area e = true) new with
  | StTextAreaDisabled _ value _ :: _ => Some value
  | _ => None
  end.

(** A translate call respects the validation of [render_app] when its
    text is not blank, its target is not ["auto"] and its languages are
    not one and the same concrete language. *)
Definition valid_translate_call (text_to_translate : str) (e : event) : Prop :=
  match e with
  | GtTranslate text source target =>
    text = text_to_translate
    /\ str_is_empty (strip text) = false
    /\ target <> lit "auto"
    /\ (source = lit "auto" \/ source <> target)
  | _ => True
  end.

(** ** Event groups and properties of computations *)

(** The events of [configure_page], of [render_header] and of the widgets
    that precede the select boxes. *)
Definition page_config_event : event :=
  StSetPageConfig (lit "Tradutor de Textos") (lit "🌐")
                  (lit "centered") (lit "collapsed").

Definition header_events : list event :=
  [StTitle (lit "Tradutor de Textos");
   StCaption header_caption;
   StDivider].

Definition text_input_events : list event :=
  [StSubheader (lit "Texto para traduzir");
   StTextAreaInput (lit "")
     (lit "Digite ou cole aqui o texto que deseja traduzir...") 160;
   StWrite (lit "");
   StColumns 2].

(** What the guarded call logs when the provider raises [e]. *)
Definition generic_failure_events (text source target : str) (e : exn)
    : list event :=
  [StSpinner (lit "Traduzindo...");
   GtTranslate text source target;
   StError translate_failed;
   StExpander (lit "Detalhes técnicos");
   StException e].

(** Events that tell the user of a failure. *)
Definition is_failure_message (e : event) : bool :=
  match e with
  | StWarning _ | StError _ | StException _ => true
  | _ => false
  end.

(** Every event a computation adds to the log satisfies [Q]. *)
Definition emits_only {W A} (Q : event -> Prop) (m : M W A) : Prop :=
  forall s, exists new, log (m s).2 = log s ++ new /\ Forall Q new.

(** A computation is quiet when, run on a filled cache, it leaves the cache
    as it is and makes no catalog call. *)
Definition quiet {W A} (m : M W A) : Prop :=
  forall s d, cache s = Some d ->
    cache (m s).2 = Some d
    /\ filter (fun e => is_catalog_call e = true) (log (m s).2)
       = filter (fun e => is_catalog_call e = true) (log s).

(** ** Providers and inputs for the examples *)

(** A provider that gives the same three answers whatever it is asked; its
    world counts the calls it has served. *)
Definition scripted_provider (static instance : result catalog)
    (translated : result str) : provider nat := {|
  languages_static w := (static, S w);
  languages_instance w := (instance, S w);
  translate _ _ _ w := (translated, S w)
|}.

Definition demo_catalog : catalog :=
  [(lit "portuguese", lit "pt"); (lit "english", lit "en");
   (lit "haitian creole", lit "ht"); (lit "chinese (simplified)", lit "zh-CN")].

Definition missing_self : exn :=
  Exn true (lit "get_supported_languages() missing 1 required positional argument: 'self'").

Definition connection_error : exn :=
  Exn false (lit "ConnectionError: Max retries exceeded").

Definition demo_provider : provider nat :=
  scripted_provider (Ok demo_catalog) (Ok demo_catalog)
                    (Ok (lit "Olá mundo")).

Definition legacy_provider : provider nat :=
  scripted_provider (Raise missing_self) (Ok demo_catalog)
                    (Ok (lit "Olá mundo")).

Definition offline_provider : provider nat :=
  scripted_provider (Raise connection_error) (Raise connection_error)
                    (Raise connection_error).

(** A provider that lists a language under the code ["auto"]. *)
Definition auto_code_provider : provider nat :=
  scripted_provider (Ok [(lit "automatic", lit "auto"); (lit "english", lit "en")])
                    (Ok []) (Ok []).

Definition initial_state : state nat :=
  {| world := 0%nat; cache := None; log := [] |}.

(** First load of the page: nothing typed, picked or pressed. *)
Definition first_render : ui_input :=
  {| text_area_value := []; origin_choice := None; target_choice := None;
     button_clicked := false |}.

(** ** Further observations *)

(** ASCII title case: where a word starts there is no small letter, and
    after a letter there is no capital. *)
Fixpoint title_cased (previous_is_cased : bool) (s : str) : bool :=
  match s with
  | [] => true
  | c :: rest =>
    (if previous_is_cased then negb (is_ascii_upper c)
     else negb (is_ascii_lower c))
    && title_cased (is_ascii_letter c) rest
  end.

(** The events of [render_footer]. *)
Definition footer_events : list event :=
  [StDivider;
   StCaption (lit "Feito com ❤️ usando Streamlit e deep-translator (GoogleTranslator).")].

(** What the guarded call logs when the provider returns [translated]. *)
Definition success_events (text source target translated : str) : list event :=
  [StSpinner (lit "Traduzindo...");
   GtTranslate text source target;
   StSuccess (lit "Tradução concluída!");
   StTextAreaDisabled (lit "Tradução") translated 160].

(** The number of translate calls among the events [new]. *)
Definition translate_calls (new : list event) : nat :=
  length (filter (fun e => is_translate_call e = true) new).

(** The events a computation adds to the log satisfy [R] as a whole. *)
Definition emits {W A} (R : list event -> Prop) (m : M W A) : Prop :=
  forall s, exists new, log (m s).2 = log s ++ new /\ R new.

(** An event of a pass in which nothing is submitted: no translate call,
    no translation area, no message of failure. *)
Definition idle_event (e : event) : Prop :=
  is_translate_call e = false /\ is_disabled_text_area e = false
  /\ is_failure_message e = false.

(** A translate call uses codes that the catalog offers: its source is
    ["auto"] or a code of the catalog, and its target a code of the
    catalog. *)
Definition codes_offered (supported : catalog) (e : event) : Prop :=
  match e with
  | GtTranslate _ source target =>
    (source = lit "auto" \/ source ∈ supported.*2) /\ target ∈ supported.*2
  | _ => True
  end.

(** A translate call is the call for [text], [source] and [target]. *)
Definition call_of (text source target : str) (e : event) : Prop :=
  match e with
  | GtTranslate text' source' target' =>
    text' = text /\ source' = source /\ target' = target
  | _ => True
  end.

(** Streamlit's script runner around [main]: an exception that leaves the
    script is shown on the page with [st.exception], the run ends there,
    and the server goes on to the next run from the state the run left. *)
Definition run_script {W} (ucd : case_data) (P : provider W)
    (input : ui_input) (s : state W) : state W :=
  match main ucd P input s with
  | (Ok _, s') => s'
  | (Raise e, s') => logged s' [StException e]
  end.

(** The widgets of the page the user can act on. *)
Definition is_input_widget (e : event) : bool :=
  match e with
  | StTextAreaInput _ _ _ | StSelectbox _ _ _ | StButton _ => true
  | _ => false
  end.

(** A provider of the old shape that cannot be reached. *)
Definition legacy_offline_provider : provider nat :=
  scripted_provider (Raise missing_self) (Raise connection_error)
                    (Raise connection_error).

(** A provider whose catalog is empty. *)
Definition empty_catalog_provider : provider nat :=
  scripted_provider (Ok []) (Ok []) (Ok []).

(** ** Examples *)

Example lit_decodes_utf8 : lit "ção" = [0xE7; 0xE3; 0x6F].
Proof. reflexivity. Qed.

Example format_chinese_simplified :
  format_language_name ucd_fragment (lit "chinese_(simplified)")
  = lit "Chinese (Simplified)".
Proof. reflexivity. Qed.

Example sorted_items_example :
  sorted_items ucd_fragment
    [(lit "portuguese", lit "pt"); (lit "english", lit "en");
     (lit "haitian_creole", lit "ht")]
  = [(lit "English", lit "en"); (lit "Haitian Creole", lit "ht");
     (lit "Portuguese", lit "pt")].
Proof. reflexivity. Qed.

(** * Properties *)

#[local] Arguments lit : simpl never.

(** ** The order on strings *)

Lemma str_eqb_true (a b : str) : str_eqb a b = true <-> a = b.
Proof. unfold str_eqb. apply bool_decide_eq_true. Qed.

Lemma str_eqb_false (a b : str) : str_eqb a b = false <-> a <> b.
Proof. unfold str_eqb. apply bool_decide_eq_false. Qed.

Lemma str_ltb_irrefl (a : str) : str_ltb a a = false.
Proof.
  induction a as [|x a IH]; simpl; [done|].
  by rewrite N.ltb_irrefl.
Qed.

Lemma str_ltb_asym (a b : str) : str_ltb a b = true -> str_ltb b a = false.
Proof.
  revert b. induction a as [|x a IH]; intros [|y b]; simpl; try done.
  destruct (N.ltb_spec x y), (N.ltb_spec y x); try done; try lia.
  apply IH.
Qed.

Lemma str_ltb_trans (a b c : str) :
  str_ltb a b = true -> str_ltb b c = true -> str_ltb a c = true.
Proof.
  revert b c. induction a as [|x a IH]; intros [|y b] [|z c]; simpl; try done.
  destruct (N.ltb_spec x y), (N.ltb_spec y x), (N.ltb_spec y z),
    (N.ltb_spec z y), (N.ltb_spec x z), (N.ltb_spec z x);
    try done; try lia.
  apply IH.
Qed.

Lemma str_ltb_total (a b : str) :
  str_ltb a b = false -> str_ltb b a = false -> a = b.
Proof.
  revert b. induction a as [|x a IH]; intros [|y b]; simpl; try done.
  destruct (N.ltb_spec x y), (N.ltb_spec y x); try done.
  intros. f_equal; [lia|]. by apply IH.
Qed.

(** [a <= b] and [b <= c] give [a <= c]. *)
Lemma str_leb_trans (a b c : str) :
  str_ltb b a = false -> str_ltb c b = false -> str_ltb c a = false.
Proof.
  intros Hab Hbc. destruct (str_ltb c a) eqn:Hca; [|done].
  destruct (str_ltb a b) eqn:Hlt.
  - by rewrite (str_ltb_trans c a b) in Hbc.
  - assert (a = b) as -> by by apply str_ltb_total. congruence.
Qed.

(** ** [sorted] sorts, permutes and is stable *)

Section SortedFacts.
Context {A : Type} (key : A -> str).

#[local] Instance key_le_trans : Transitive (key_le key).
Proof. intros a b c. unfold key_le. apply str_leb_trans. Qed.

Lemma insert_by_key_perm (x : A) (l : list A) :
  insert_by_key key x l ≡ₚ x :: l.
Proof.
  induction l as [|y l IH]; simpl; [done|].
  destruct (str_ltb (key y) (key x)); [|done].
  rewrite IH. apply Permutation_swap.
Qed.

Lemma sorted_perm (l : list A) : sorted key l ≡ₚ l.
Proof.
  induction l as [|x l IH]; simpl; [done|].
  by rewrite insert_by_key_perm, IH.
Qed.

Lemma insert_by_key_sorted (x : A) (l : list A) :
  StronglySorted (key_le key) l ->
  StronglySorted (key_le key) (insert_by_key key x l).
Proof.
  induction 1 as [|y l Hl IH Hy]; simpl.
  - repeat constructor.
  - destruct (str_ltb (key y) (key x)) eqn:Hlt.
    + constructor; [done|].
      rewrite insert_by_key_perm. constructor; [|done].
      by apply str_ltb_asym.
    + constructor; [by constructor|].
      constructor; [done|].
      eapply Forall_impl; [exact Hy|].
      intros z Hz. by transitivity y.
Qed.

Lemma sorted_sorted (l : list A) : StronglySorted (key_le key) (sorted key l).
Proof.
  induction l as [|x l IH]; simpl; [constructor|].
  by apply insert_by_key_sorted.
Qed.

(** Insertion walks past strictly smaller keys only, so it never overtakes
    an element with the key of the one it inserts. *)
Lemma insert_by_key_stable (k : str) (x : A) (l : list A) :
  filter (fun a => key a = k) (insert_by_key key x l)
  = filter (fun a => key a = k) (x :: l).
Proof.
  induction l as [|y l IH]; simpl; [done|].
  destruct (str_ltb (key y) (key x)) eqn:Hlt; [|done].
  rewrite !filter_cons in *.
  destruct (decide (key y = k)) as [Hy|Hy], (decide (key x = k)) as [Hx|Hx];
    rewrite ?IH; try done.
  rewrite Hy, Hx, str_ltb_irrefl in Hlt. done.
Qed.

Lemma sorted_stable (k : str) (l : list A) :
  filter (fun a => key a = k) (sorted key l) = filter (fun a => key a = k) l.
Proof.
  induction l as [|x l IH]; simpl; [done|].
  rewrite insert_by_key_stable, !filter_cons, IH. done.
Qed.

End SortedFacts.

(** ** [find_index] *)

Lemma find_index_from_absent (idx : nat) (options : list language_option)
    (code : str) :
  code ∉ options.*2 -> find_index_from idx options code = 0%nat.
Proof.
  revert idx. induction options as [|[l c] options IH]; intros idx Hn; simpl;
    [done|].
  rewrite fmap_cons, not_elem_of_cons in Hn. destruct Hn as [Hc Hn].
  destruct (str_eqb c code) eqn:E.
  - apply str_eqb_true in E. simpl in Hc. congruence.
  - by apply IH.
Qed.

Lemma find_index_from_present (idx : nat) (options : list language_option)
    (code : str) :
  code ∈ options.*2 ->
  exists k label,
    find_index_from idx options code = (idx + k)%nat
    /\ options !! k = Some (label, code)
    /\ forall j o, (j < k)%nat -> options !! j = Some o -> o.2 <> code.
Proof.
  revert idx. induction options as [|[l c] options IH]; intros idx Hin; simpl.
  - by apply elem_of_nil in Hin.
  - destruct (str_eqb c code) eqn:E.
    + apply str_eqb_true in E. subst c.
      exists 0%nat, l. split; [lia|]. split; [done|]. intros; lia.
    + apply str_eqb_false in E.
      rewrite fmap_cons, elem_of_cons in Hin.
      destruct Hin as [Hin|Hin]; [simpl in Hin; congruence|].
      destruct (IH (S idx) Hin) as (k & label & Hk & Hl & Hfirst).
      exists (S k), label. split; [lia|]. split; [done|].
      intros [|j] o Hj Ho; simpl in Ho.
      * by inversion Ho; subst.
      * apply (Hfirst j); [lia|done].
Qed.

Lemma find_index_present (options : list language_option) (code : str) :
  code ∈ options.*2 ->
  exists label,
    options !! find_index options code = Some (label, code)
    /\ forall j o, (j < find_index options code)%nat ->
                   options !! j = Some o -> o.2 <> code.
Proof.
  intros Hin. unfold find_index.
  destruct (find_index_from_present 0 options code Hin)
    as (k & label & Hk & Hl & Hfirst).
  simpl in Hk. rewrite Hk. by exists label.
Qed.

(** C10. [find_index options code] is the index of the first entry of
    [options] whose code is [code] when there is one, and 0 when there is
    none; on a list that is not empty it is therefore an index of the
    list. *)
Theorem find_index_spec (options : list language_option) (code : str) :
  (code ∈ options.*2 ->
   exists label,
     options !! find_index options code = Some (label, code)
     /\ forall j o, (j < find_index options code)%nat ->
                    options !! j = Some o -> o.2 <> code)
  /\ (code ∉ options.*2 -> find_index options code = 0%nat)
  /\ (options <> [] -> (find_index options code < length options)%nat).
Proof.
  split; [apply find_index_present|]. split.
  - apply find_index_from_absent.
  - intros Hne. destruct (decide (code ∈ options.*2)) as [Hin|Hn].
    + destruct (find_index_present options code Hin) as (label & Hl & _).
      by eapply lookup_lt_Some.
    + unfold find_index. rewrite find_index_from_absent by done.
      destruct options; [done|simpl; lia].
Qed.

Lemma find_index_spec_witness :
  (exists label,
     [(lit "English", lit "en"); (lit "Portuguese", lit "pt")]
       !! find_index [(lit "English", lit "en"); (lit "Portuguese", lit "pt")]
                     (lit "pt")
     = Some (label, lit "pt")
     /\ forall j o,
          (j < find_index [(lit "English", lit "en"); (lit "Portuguese", lit "pt")]
                          (lit "pt"))%nat ->
          [(lit "English", lit "en"); (lit "Portuguese", lit "pt")] !! j = Some o ->
          o.2 <> lit "pt")
  /\ find_index [(lit "English", lit "en"); (lit "Portuguese", lit "pt")]
                (lit "ht") = 0%nat
  /\ (find_index [(lit "English", lit "en"); (lit "Portuguese", lit "pt")]
                 (lit "pt") < 2)%nat.
Proof.
  destruct (find_index_spec
              [(lit "English", lit "en"); (lit "Portuguese", lit "pt")]
              (lit "pt")) as (Hpresent & _ & Hbound).
  destruct (find_index_spec
              [(lit "English", lit "en"); (lit "Portuguese", lit "pt")]
              (lit "ht")) as (_ & Habsent & _).
  split; [|split].
  - apply Hpresent. vm_compute. apply list_elem_of_further, list_elem_of_here.
  - apply Habsent. vm_compute. intros Hin.
    repeat (apply elem_of_cons in Hin as [Hin|Hin]; [discriminate Hin|]).
    by apply elem_of_nil in Hin.
  - apply Hbound. discriminate.
Defined.

(** ** [format_language_name] *)

Ltac ascii_cases :=
  unfold ascii_upper, ascii_lower, is_ascii_letter, is_ascii_upper,
    is_ascii_lower, is_ascii in *;
  repeat match goal with
  | |- context [N.leb ?a ?b] =>
    first [is_var a | is_var b]; destruct (N.leb_spec a b); simpl in *
  end;
  repeat match goal with
  | |- context [N.leb ?a ?b] => destruct (N.leb_spec a b); simpl in *
  | |- context [N.ltb ?a ?b] => destruct (N.ltb_spec a b); simpl in *
  end; try done; try lia.

Lemma is_ascii_letter_upper c : is_ascii_letter (ascii_upper c) = is_ascii_letter c.
Proof. ascii_cases. Qed.

Lemma is_ascii_letter_lower c : is_ascii_letter (ascii_lower c) = is_ascii_letter c.
Proof. ascii_cases. Qed.

Lemma ascii_upper_idem c : ascii_upper (ascii_upper c) = ascii_upper c.
Proof. ascii_cases. Qed.

Lemma ascii_lower_idem c : ascii_lower (ascii_lower c) = ascii_lower c.
Proof. ascii_cases. Qed.

Lemma is_ascii_upper_ascii c : is_ascii (ascii_upper c) = is_ascii c.
Proof. ascii_cases. Qed.

Lemma is_ascii_lower_ascii c : is_ascii (ascii_lower c) = is_ascii c.
Proof. ascii_cases. Qed.

Lemma ascii_upper_underscore c : ascii_upper c = 0x5F -> c = 0x5F.
Proof. ascii_cases. Qed.

Lemma ascii_lower_underscore c : ascii_lower c = 0x5F -> c = 0x5F.
Proof. ascii_cases. Qed.

Lemma basic_latin_exact_entry (ucd : case_data) (c : N) :
  basic_latin_exact ucd = true -> is_ascii c = true ->
  is_cased ucd c = is_ascii_letter c
  /\ to_title_full ucd c = [ascii_upper c]
  /\ to_lower_full ucd c = [ascii_lower c].
Proof.
  unfold basic_latin_exact, is_ascii. intros Hall Hc.
  apply N.ltb_lt in Hc.
  rewrite forallb_forall in Hall.
  specialize (Hall (N.to_nat c)). rewrite N2Nat.id in Hall.
  unfold basic_latin_entry in Hall.
  rewrite !andb_true_iff, !bool_decide_eq_true in Hall.
  destruct Hall as [[? ?] ?]; [apply in_seq; lia|done].
Qed.

(** On ASCII text, and with a database that is exact there, the loop of
    [str.title] is [ascii_do_title]: no code point is a capital sigma and
    every mapping is one code point long. *)
Lemma do_title_ascii (ucd : case_data) (before : str) (p : bool) (s : str) :
  basic_latin_exact ucd = true ->
  Forall (fun c => is_ascii c = true) s ->
  do_title ucd before p s = ascii_do_title p s.
Proof.
  intros Hucd Hs. revert before p.
  induction Hs as [|c s Hc Hs IH]; intros before p; simpl; [done|].
  destruct (basic_latin_exact_entry ucd c Hucd Hc) as (Hcased & Ht & Hl).
  rewrite IH, Hcased, Ht. unfold lower_ucs4. rewrite Hl.
  replace (c =? 0x3A3) with false
    by (symmetry; apply N.eqb_neq; unfold is_ascii in Hc;
        apply N.ltb_lt in Hc; lia).
  by destruct p.
Qed.

Lemma ascii_do_title_is_ascii (p : bool) (s : str) :
  Forall (fun c => is_ascii c = true) s ->
  Forall (fun c => is_ascii c = true) (ascii_do_title p s).
Proof.
  intros Hs. revert p. induction Hs as [|c s Hc Hs IH]; intros p; simpl;
    constructor; [|done].
  destruct p; by rewrite ?is_ascii_lower_ascii, ?is_ascii_upper_ascii.
Qed.

(** A second pass finds the letters where the first pass left them, already
    in the case it would give them. *)
Lemma ascii_do_title_idem (p : bool) (s : str) :
  ascii_do_title p (ascii_do_title p s) = ascii_do_title p s.
Proof.
  revert p. induction s as [|c s IH]; intros p; simpl; [done|].
  destruct p;
    rewrite ?ascii_lower_idem, ?ascii_upper_idem, ?is_ascii_letter_lower,
      ?is_ascii_letter_upper, IH; done.
Qed.

Lemma ascii_do_title_no_underscore (p : bool) (s : str) :
  Forall (fun c => c <> 0x5F) s ->
  Forall (fun c => c <> 0x5F) (ascii_do_title p s).
Proof.
  intros Hs. revert p. induction Hs as [|c s Hc Hs IH]; intros p; simpl;
    constructor; [|done].
  destruct p; intros E;
    [apply ascii_lower_underscore in E|apply ascii_upper_underscore in E];
    done.
Qed.

Lemma replace_underscore_gone (s : str) :
  Forall (fun c => c <> 0x5F) (replace 0x5F 0x20 s).
Proof.
  unfold replace. induction s as [|c s IH]; simpl; constructor; [|done].
  by destruct (N.eqb_spec c 0x5F).
Qed.

Lemma replace_without_underscore (s : str) :
  Forall (fun c => c <> 0x5F) s -> replace 0x5F 0x20 s = s.
Proof.
  unfold replace. induction 1 as [|c s Hc Hs IH]; simpl; [done|].
  rewrite IH. by destruct (N.eqb_spec c 0x5F).
Qed.

Lemma replace_is_ascii (s : str) :
  Forall (fun c => is_ascii c = true) s ->
  Forall (fun c => is_ascii c = true) (replace 0x5F 0x20 s).
Proof.
  unfold replace. induction 1 as [|c s Hc Hs IH]; simpl; constructor; [|done].
  by destruct (N.eqb_spec c 0x5F).
Qed.

(** C6, for ASCII keys. On a catalog key made of ASCII code points only,
    [format_language_name] is idempotent: formatting the formatted name
    gives the formatted name.  This holds for every case database that is
    exact on Basic Latin, the one of the interpreter included. *)
Theorem format_language_name_idempotent_ascii (ucd : case_data) (key : str) :
  basic_latin_exact ucd = true ->
  forallb is_ascii key = true ->
  format_language_name ucd (format_language_name ucd key)
  = format_language_name ucd key.
Proof.
  intros Hucd Hkey.
  assert (Forall (fun c => is_ascii c = true) key) as Hk.
  { apply Forall_forall. intros c Hc. rewrite forallb_forall in Hkey.
    apply Hkey. by apply list_elem_of_In. }
  unfold format_language_name, title.
  rewrite (do_title_ascii ucd [] false (replace 0x5F 0x20 key))
    by (try done; by apply replace_is_ascii).
  rewrite replace_without_underscore
    by apply ascii_do_title_no_underscore, replace_underscore_gone.
  rewrite do_title_ascii
    by (try done; by apply ascii_do_title_is_ascii, replace_is_ascii).
  apply ascii_do_title_idem.
Qed.

Lemma format_language_name_idempotent_ascii_witness :
  format_language_name ucd_fragment
    (format_language_name ucd_fragment (lit "haitian_creole"))
  = format_language_name ucd_fragment (lit "haitian_creole").
Proof.
  apply (format_language_name_idempotent_ascii ucd_fragment
           (lit "haitian_creole")); vm_compute; reflexivity.
Defined.

(** C6 does not extend to every key. On the key U+01F0 U+0061 the first pass turns
    the j with caron into J followed by a combining caron, which is not
    cased, so the second pass takes the [a] after it for the start of a
    word and writes [A]. *)
Lemma format_language_name_not_idempotent :
  format_language_name ucd_fragment [0x1F0; 0x61] = [0x4A; 0x30C; 0x61]
  /\ format_language_name ucd_fragment
       (format_language_name ucd_fragment [0x1F0; 0x61])
     = [0x4A; 0x30C; 0x41]
  /\ format_language_name ucd_fragment
       (format_language_name ucd_fragment [0x1F0; 0x61])
     <> format_language_name ucd_fragment [0x1F0; 0x61].
Proof. split; [reflexivity|]. split; [reflexivity|]. vm_compute. discriminate. Qed.

(** ** Running the program *)

Section Effects.
Context {W : Type} (ucd : case_data) (P : provider W).

Lemma logged_logged (s : state W) (l1 l2 : list event) :
  logged (logged s l1) l2 = logged s (l1 ++ l2).
Proof. unfold logged. simpl. by rewrite app_assoc. Qed.

Lemma bind_ok {A B} (m : M W A) (k : A -> M W B) (s s' : state W) (a : A) :
  m s = (Ok a, s') -> bind m k s = k a s'.
Proof. intros H. unfold bind. by rewrite H. Qed.

Lemma bind_ret {A B} (a : A) (k : A -> M W B) (s : state W) :
  bind (ret a) k s = k a s.
Proof. done. Qed.

Lemma bind_raised {A B} (e : exn) (k : A -> M W B) (s : state W) :
  bind (raise e) k s = (Raise e, s).
Proof. done. Qed.

Lemma bind_emit {B} (e : event) (k : unit -> M W B) (s : state W) :
  bind (emit e) k s = k tt (logged s [e]).
Proof. done. Qed.

Lemma configure_page_eq (s : state W) :
  configure_page s = (Ok tt, logged s [page_config_event]).
Proof. done. Qed.

Lemma render_header_eq (s : state W) :
  render_header s = (Ok tt, logged s header_events).
Proof.
  unfold render_header. rewrite !bind_emit. unfold emit, logged. simpl.
  by rewrite <- !app_assoc.
Qed.

Lemma st_selectbox_eq (label : str) (options : list language_option)
    (index : nat) (choice : option nat) (s : state W) :
  st_selectbox label options index choice s
  = (Ok (picked options index choice),
     logged s [StSelectbox label options index]).
Proof. done. Qed.

Lemma picked_is_Some (options : list language_option) (index : nat)
    (choice : option nat) :
  (index < length options)%nat -> is_Some (picked options index choice).
Proof.
  intros Hi. unfold picked. destruct choice as [i|].
  - case_decide; by apply lookup_lt_is_Some.
  - by apply lookup_lt_is_Some.
Qed.

(** *** The catalog loader *)

(** C7. The loader calls the class-level accessor first.  A value it
    returns is returned, with no second call; an exception that is not a
    [TypeError] is raised again, with no second call; and exactly on a
    [TypeError] the instance-level accessor is called, in the world the
    first call left, and its outcome is the outcome of the loader.  On an
    empty cache the decorated loader has the outcome, the world and the log
    of this body. *)
Theorem get_supported_languages_fallback (w0 : W) (l0 : list event)
    (s : state W) :
  get_supported_languages_body P s =
  match languages_static P (world s) with
  | (Ok d, w) =>
    (Ok d, {| world := w; cache := cache s;
              log := log s ++ [GtLanguagesStatic] |})
  | (Raise e, w) =>
    if exn_is_TypeError e then
      let '(r, w') := languages_instance P w in
      (r, {| world := w'; cache := cache s;
             log := log s ++ [GtLanguagesStatic; GtLanguagesInstance] |})
    else
      (Raise e, {| world := w; cache := cache s;
                   log := log s ++ [GtLanguagesStatic] |})
  end
  /\ (let empty := {| world := w0; cache := None; log := l0 |} in
      (get_supported_languages P empty).1
      = (get_supported_languages_body P empty).1
      /\ world (get_supported_languages P empty).2
         = world (get_supported_languages_body P empty).2
      /\ log (get_supported_languages P empty).2
         = log (get_supported_languages_body P empty).2).
Proof.
  split.
  - unfold get_supported_languages_body, try_except, call.
    destruct (languages_static P (world s)) as [[d|e] w]; simpl; [done|].
    destruct (exn_is_TypeError e); [|done]. simpl.
    destruct (languages_instance P w) as [r w']. by rewrite <- app_assoc.
  - unfold get_supported_languages, cache_data. simpl.
    by destruct (get_supported_languages_body P _) as [[d|e] s'].
Qed.

Lemma get_supported_languages_hit (s : state W) (d : catalog) :
  cache s = Some d -> get_supported_languages P s = (Ok d, s).
Proof. intros H. unfold get_supported_languages, cache_data. by rewrite H. Qed.

Lemma get_supported_languages_fills (s s' : state W) (d : catalog) :
  get_supported_languages P s = (Ok d, s') -> cache s' = Some d.
Proof.
  unfold get_supported_languages, cache_data.
  destruct (cache s) as [d0|] eqn:Hc.
  - intros [= <- <-]. done.
  - destruct (get_supported_languages_body P s) as [[d0|e] s0]; [|done].
    by intros [= <- <-].
Qed.

Lemma build_language_options_returns (s s' : state W) (supported : catalog) :
  get_supported_languages P s = (Ok supported, s') ->
  build_language_options ucd P s
  = (Ok (auto_option :: sorted_items ucd supported,
         sorted_items ucd supported), s').
Proof.
  intros H. unfold build_language_options. by rewrite (bind_ok _ _ _ _ _ H).
Qed.

(** *** Quiet computations *)

Lemma quiet_ret {A} (a : A) : quiet (@ret W A a).
Proof. by intros s d Hc. Qed.

Lemma quiet_raise {A} (e : exn) : quiet (@raise W A e).
Proof. by intros s d Hc. Qed.

Lemma quiet_emit (e : event) : is_catalog_call e = false -> quiet (@emit W e).
Proof.
  intros He s d Hc. simpl. split; [done|].
  rewrite filter_app, filter_cons_False, filter_nil, app_nil_r by congruence.
  done.
Qed.

Lemma quiet_call {A} (e : event) (f : W -> result A * W) :
  is_catalog_call e = false -> quiet (call e f).
Proof.
  intros He s d Hc. unfold call. destruct (f (world s)) as [r w]. simpl.
  split; [done|].
  rewrite filter_app, filter_cons_False, filter_nil, app_nil_r by congruence.
  done.
Qed.

Lemma quiet_bind {A B} (m : M W A) (k : A -> M W B) :
  quiet m -> (forall a, quiet (k a)) -> quiet (bind m k).
Proof.
  intros Hm Hk s d Hc. unfold bind.
  destruct (Hm s d Hc) as [Hc' Hl].
  destruct (m s) as [[a|e] s']; simpl in *; [|done].
  destruct (Hk a s' d Hc') as [Hc'' Hl']. by rewrite Hl'.
Qed.

Lemma quiet_try_except {A} (m : M W A) (c : exn -> bool) (h : exn -> M W A) :
  quiet m -> (forall e, quiet (h e)) -> quiet (try_except m c h).
Proof.
  intros Hm Hh s d Hc. unfold try_except.
  destruct (Hm s d Hc) as [Hc' Hl].
  destruct (m s) as [[a|e] s']; simpl in *; [done|].
  destruct (c e); [|done].
  destruct (Hh e s' d Hc') as [Hc'' Hl']. by rewrite Hl'.
Qed.

Lemma quiet_get_supported_languages : quiet (get_supported_languages P).
Proof. intros s d Hc. by rewrite (get_supported_languages_hit s d Hc). Qed.

Ltac quiet_step :=
  first
    [ apply quiet_bind; [|intros ?]
    | apply quiet_try_except; [|intros ?]
    | apply quiet_emit; reflexivity
    | apply quiet_call; reflexivity
    | apply quiet_ret
    | apply quiet_raise
    | apply quiet_get_supported_languages ].

Lemma quiet_on_button (clicked : bool) (text source target : str) :
  quiet (on_button P clicked text source target).
Proof.
  unfold on_button, translate_guarded, translate_text, render_footer.
  repeat case_match; repeat quiet_step.
Qed.

Lemma quiet_main (input : ui_input) : quiet (main ucd P input).
Proof.
  unfold main, render_app, configure_page, render_header,
    build_language_options, st_selectbox, unpack.
  repeat (repeat quiet_step; try apply quiet_on_button; repeat case_match).
Qed.

Lemma run_passes_quiet (inputs : list ui_input) (s : state W) (d : catalog) :
  cache s = Some d ->
  cache (run_passes ucd P inputs s) = Some d
  /\ filter (fun e => is_catalog_call e = true) (log (run_passes ucd P inputs s))
     = filter (fun e => is_catalog_call e = true) (log s).
Proof.
  revert s. induction inputs as [|input inputs IH]; intros s Hc; simpl;
    [done|].
  destruct (quiet_main input s d Hc) as [Hc' Hl].
  destruct (IH _ Hc') as [Hc'' Hl']. split; [done|]. by rewrite Hl'.
Qed.

(** C9. Once the loader has returned a catalog, it returns that catalog
    again after any number of later render passes, whatever the user did in
    them, and leaves the state as it finds it: no call reaches the
    provider.  The passes in between make no catalog call either. *)
Theorem catalog_memoized (s s1 : state W) (supported : catalog)
    (inputs : list ui_input) :
  get_supported_languages P s = (Ok supported, s1) ->
  let s2 := run_passes ucd P inputs s1 in
  get_supported_languages P s2 = (Ok supported, s2)
  /\ filter (fun e => is_catalog_call e = true) (log s2)
     = filter (fun e => is_catalog_call e = true) (log s1).
Proof.
  intros Hload s2. apply get_supported_languages_fills in Hload.
  destruct (run_passes_quiet inputs s1 supported Hload) as [Hc Hl].
  split; [|done]. by apply get_supported_languages_hit.
Qed.

End Effects.

Lemma catalog_memoized_witness :
  let s1 := (get_supported_languages demo_provider initial_state).2 in
  let s2 := run_passes ucd_fragment demo_provider
              [first_render;
               {| text_area_value := lit "Hello world"; origin_choice := None;
                  target_choice := Some 3%nat; button_clicked := true |}] s1 in
  get_supported_languages demo_provider s2 = (Ok demo_catalog, s2)
  /\ filter (fun e => is_catalog_call e = true) (log s2)
     = filter (fun e => is_catalog_call e = true) (log s1).
Proof.
  apply (catalog_memoized ucd_fragment demo_provider initial_state).
  reflexivity.
Defined.

(** ** What a render pass logs *)

Section Logs.
Context {W : Type} (ucd : case_data) (P : provider W).

Section EmitsOnly.
Context (Q : event -> Prop).

Lemma emits_only_ret {A} (a : A) : emits_only Q (@ret W A a).
Proof. intros s. exists []. by rewrite app_nil_r. Qed.

Lemma emits_only_raise {A} (e : exn) : emits_only Q (@raise W A e).
Proof. intros s. exists []. by rewrite app_nil_r. Qed.

Lemma emits_only_emit (e : event) : Q e -> emits_only Q (@emit W e).
Proof. intros He s. exists [e]. split; [done|]. by constructor. Qed.

Lemma emits_only_call {A} (e : event) (f : W -> result A * W) :
  Q e -> emits_only Q (call e f).
Proof.
  intros He s. exists [e]. unfold call.
  destruct (f (world s)) as [r w]. split; [done|]. by constructor.
Qed.

Lemma emits_only_bind {A B} (m : M W A) (k : A -> M W B) :
  emits_only Q m -> (forall a, emits_only Q (k a)) -> emits_only Q (bind m k).
Proof.
  intros Hm Hk s. unfold bind. destruct (Hm s) as (n1 & Hl1 & HQ1).
  destruct (m s) as [[a|e] s']; simpl in *; [|by exists n1].
  destruct (Hk a s') as (n2 & Hl2 & HQ2). exists (n1 ++ n2).
  rewrite Hl2, Hl1, app_assoc. split; [done|]. by apply Forall_app.
Qed.

Lemma emits_only_try_except {A} (m : M W A) (c : exn -> bool)
    (h : exn -> M W A) :
  emits_only Q m -> (forall e, emits_only Q (h e)) ->
  emits_only Q (try_except m c h).
Proof.
  intros Hm Hh s. unfold try_except. destruct (Hm s) as (n1 & Hl1 & HQ1).
  destruct (m s) as [[a|e] s']; simpl in *; [by exists n1|].
  destruct (c e); [|by exists n1].
  destruct (Hh e s') as (n2 & Hl2 & HQ2). exists (n1 ++ n2).
  rewrite Hl2, Hl1, app_assoc. split; [done|]. by apply Forall_app.
Qed.

Lemma emits_only_cache_data (f : M W catalog) :
  emits_only Q f -> emits_only Q (cache_data f).
Proof.
  intros Hf s. unfold cache_data. destruct (cache s).
  - exists []. by rewrite app_nil_r.
  - destruct (Hf s) as (n & Hl & HQ).
    destruct (f s) as [[d|e] s']; by exists n.
Qed.

End EmitsOnly.

Ltac emits_step :=
  first
    [ apply emits_only_bind; [|intros ?]
    | apply emits_only_try_except; [|intros ?]
    | apply emits_only_cache_data
    | apply emits_only_emit; exact I
    | apply emits_only_call; exact I
    | apply emits_only_ret
    | apply emits_only_raise ].

Lemma get_supported_languages_log :
  emits_only (fun _ => True) (get_supported_languages P).
Proof.
  unfold get_supported_languages, get_supported_languages_body.
  repeat emits_step.
Qed.

(** The translate call sits behind the three tests of lines 135-146. *)
Lemma on_button_translate_calls (clicked : bool) (text source target : str) :
  emits_only (valid_translate_call text)
             (on_button P clicked text source target).
Proof.
  unfold on_button, render_footer.
  destruct clicked; [|repeat emits_step].
  destruct (str_is_empty (strip text)) eqn:Hblank; [repeat emits_step|].
  destruct (str_eqb target (lit "auto")) eqn:Hauto; [repeat emits_step|].
  destruct (negb (str_eqb source (lit "auto")) && str_eqb source target)
    eqn:Hsame; [repeat emits_step|].
  unfold translate_guarded, translate_text. repeat emits_step.
  apply emits_only_call. simpl. split; [done|]. split; [done|].
  split; [by apply str_eqb_false|].
  apply andb_false_iff in Hsame as [Hs|Hs].
  - left. apply negb_false_iff in Hs. by apply str_eqb_true.
  - right. by apply str_eqb_false.
Qed.

Lemma main_translate_calls (input : ui_input) :
  emits_only (valid_translate_call (text_area_value input))
             (main ucd P input).
Proof.
  unfold main, render_app, configure_page, render_header,
    build_language_options, get_supported_languages,
    get_supported_languages_body, st_selectbox, unpack.
  repeat (repeat emits_step; try apply on_button_translate_calls;
          repeat case_match).
Qed.

(** C1. With the button pressed, a text that is blank once stripped ends
    the pass with the warning alone, and otherwise a target ["auto"] ends it
    with the error alone: in both cases the world is untouched and nothing
    but the message is logged.  Over a whole pass, every translate call in
    the log carries a text that is not blank and a target that is not
    ["auto"]. *)
Theorem submit_validation_order (input : ui_input) (text source target : str)
    (s : state W) :
  (str_is_empty (strip text) = true ->
   on_button P true text source target s
   = (Ok tt, logged s [StWarning text_missing]))
  /\ (str_is_empty (strip text) = false -> target = lit "auto" ->
      on_button P true text source target s
      = (Ok tt, logged s [StError target_is_auto]))
  /\ (exists new,
        log (main ucd P input s).2 = log s ++ new
        /\ Forall (valid_translate_call (text_area_value input)) new).
Proof.
  split; [|split].
  - intros Hblank. unfold on_button. by rewrite Hblank.
  - intros Hblank ->. unfold on_button. by rewrite Hblank.
  - apply main_translate_calls.
Qed.

(** C2, for text that is not blank. For a text that is not blank once stripped, a source
    equal to the target and different from ["auto"] makes the pass show
    the info message and the input text, unchanged, as the translation;
    for a blank text the pass shows the warning for missing text and no
    translation at all.  Whatever the text, such a submission logs no
    translate call and leaves the world untouched. *)
Theorem echo_same_language (text source target : str) (s : state W) :
  source = target -> source <> lit "auto" ->
  exists new,
    on_button P true text source target s = (Ok tt, logged s new)
    /\ filter (fun e => is_translate_call e = true) new = []
    /\ (str_is_empty (strip text) = false ->
        new = [StInfo same_languages;
               StTextAreaDisabled (lit "Tradução") text 160]
        /\ displayed_output new = Some text)
    /\ (str_is_empty (strip text) = true ->
        new = [StWarning text_missing]
        /\ displayed_output new = None).
Proof.
  intros <- Hauto. unfold on_button.
  apply str_eqb_false in Hauto. rewrite Hauto.
  assert (str_eqb source source = true) as -> by by apply str_eqb_true.
  destruct (str_is_empty (strip text)); simpl.
  - exists [StWarning text_missing]. split; [reflexivity|]. by repeat split.
  - exists [StInfo same_languages;
            StTextAreaDisabled (lit "Tradução") text 160].
    split; [|by repeat split].
    unfold bind, emit, logged. simpl. rewrite <- app_assoc. reflexivity.
Qed.

Lemma translate_guarded_ok (text source target : str) (s : state W) :
  (translate_guarded P text source target s).1 = Ok tt.
Proof.
  unfold translate_guarded, try_except, translate_text, bind, call, emit.
  simpl. by destruct (translate P text source target (world s)) as [[t|e] w].
Qed.

Lemma on_button_ok (clicked : bool) (text source target : str) (s : state W) :
  (on_button P clicked text source target s).1 = Ok tt.
Proof.
  unfold on_button. repeat case_match; try done.
  unfold bind. pose proof (translate_guarded_ok text source target s) as Hg.
  destruct (translate_guarded P text source target s) as [[[]|e] s'];
    simpl in *; [done|congruence].
Qed.

(** C4, for the translate call. An exception raised by the translate call is caught in
    [render_app]: the pass logs the generic error message, the expander and
    the exception itself, goes on to the footer and ends normally; whatever
    the provider does, the code that follows the button ends without an
    exception.  A failure of the catalog load, be it the class-level
    accessor raising anything but a [TypeError] or the fallback raising, is
    not caught in [app.py]: it leaves [main] before any input widget is
    rendered.  The runner of Streamlit then shows the exception on the
    page; nothing is stored in the cache, and the process goes on from the
    state the pass left. *)
Theorem translate_failure_surfaced (input : ui_input) (clicked : bool)
    (text source target : str) (s : state W) (e e0 : exn) (w w0 : W) :
  (translate P text source target (world s) = (Raise e, w) ->
   translate_guarded P text source target s
   = (Ok tt, {| world := w; cache := cache s;
                log := log s ++ generic_failure_events text source target e |}))
  /\ (on_button P clicked text source target s).1 = Ok tt
  /\ (cache s = None -> languages_static P (world s) = (Raise e, w) ->
      exn_is_TypeError e = false ->
      main ucd P input s
      = (Raise e, {| world := w; cache := None;
                     log := log s ++ page_config_event :: header_events
                                  ++ [GtLanguagesStatic] |}))
  /\ (translate P text source target (world s) = (Raise e, w) ->
      str_is_empty (strip text) = false -> target <> lit "auto" ->
      source = lit "auto" \/ source <> target ->
      on_button P true text source target s
      = (Ok tt, {| world := w; cache := cache s;
                   log := log s ++ generic_failure_events text source target e
                                ++ footer_events |}))
  /\ (cache s = None -> languages_static P (world s) = (Raise e, w) ->
      exn_is_TypeError e = false ->
      run_script ucd P input s
      = {| world := w; cache := None;
           log := log s ++ page_config_event :: header_events
                        ++ [GtLanguagesStatic; StException e] |})
  /\ (cache s = None -> languages_static P (world s) = (Raise e0, w0) ->
      exn_is_TypeError e0 = true ->
      languages_instance P w0 = (Raise e, w) ->
      main ucd P input s
      = (Raise e, {| world := w; cache := None;
                     log := log s ++ page_config_event :: header_events
                                  ++ [GtLanguagesStatic; GtLanguagesInstance] |})
      /\ run_script ucd P input s
         = {| world := w; cache := None;
              log := log s ++ page_config_event :: header_events
                           ++ [GtLanguagesStatic; GtLanguagesInstance;
                               StException e] |}).
Proof.
  assert (cache s = None -> languages_static P (world s) = (Raise e, w) ->
          exn_is_TypeError e = false ->
          main ucd P input s
          = (Raise e, {| world := w; cache := None;
                         log := log s ++ page_config_event :: header_events
                                      ++ [GtLanguagesStatic] |})) as Hstatic.
  { intros Hc Hs He. unfold main.
    rewrite (bind_ok _ _ _ _ _ (configure_page_eq s)).
    unfold render_app.
    rewrite (bind_ok _ _ _ _ _ (render_header_eq _)), logged_logged.
    unfold build_language_options, get_supported_languages, cache_data,
      get_supported_languages_body, try_except, call, bind.
    simpl. rewrite Hc, Hs, He. simpl. by rewrite <- !app_assoc. }
  assert (cache s = None -> languages_static P (world s) = (Raise e0, w0) ->
          exn_is_TypeError e0 = true ->
          languages_instance P w0 = (Raise e, w) ->
          main ucd P input s
          = (Raise e, {| world := w; cache := None;
                         log := log s ++ page_config_event :: header_events
                                      ++ [GtLanguagesStatic;
                                          GtLanguagesInstance] |}))
    as Hfallback.
  { intros Hc Hs He Hi. unfold main.
    rewrite (bind_ok _ _ _ _ _ (configure_page_eq s)).
    unfold render_app.
    rewrite (bind_ok _ _ _ _ _ (render_header_eq _)), logged_logged.
    unfold build_language_options, get_supported_languages, cache_data,
      get_supported_languages_body, try_except, call, bind.
    simpl. rewrite Hc, Hs, He. simpl. rewrite Hi. simpl.
    by rewrite <- !app_assoc. }
  split; [|split; [|split; [|split; [|split]]]].
  - intros Ht. unfold translate_guarded, try_except, translate_text, bind,
      call, emit. simpl. rewrite Ht. simpl.
    unfold generic_failure_events. by rewrite <- !app_assoc.
  - apply on_button_ok.
  - exact Hstatic.
  - intros Ht Hblank Hauto Hsame. unfold on_button. rewrite Hblank.
    apply str_eqb_false in Hauto. rewrite Hauto.
    assert (negb (str_eqb source (lit "auto")) && str_eqb source target
            = false) as ->.
    { apply andb_false_iff. destruct Hsame as [->|Hne].
      - left. apply negb_false_iff. by apply str_eqb_true.
      - right. by apply str_eqb_false. }
    unfold translate_guarded, try_except, translate_text, render_footer, bind,
      call, emit. simpl. rewrite Ht. simpl.
    unfold generic_failure_events, footer_events. by rewrite <- !app_assoc.
  - intros Hc Hs He. unfold run_script. rewrite (Hstatic Hc Hs He).
    unfold logged. simpl. by rewrite <- !app_assoc.
  - intros Hc Hs He Hi. split; [by apply Hfallback|].
    unfold run_script. rewrite (Hfallback Hc Hs He Hi).
    unfold logged. simpl. by rewrite <- !app_assoc.
Qed.

End Logs.

Lemma submit_validation_order_witness :
  on_button demo_provider true (lit "   ") (lit "auto") (lit "pt") initial_state
  = (Ok tt, logged initial_state
              [StWarning text_missing])
  /\ on_button demo_provider true (lit "Hello world") (lit "en") (lit "auto")
       initial_state
     = (Ok tt, logged initial_state
                 [StError target_is_auto]).
Proof.
  split.
  - destruct (submit_validation_order ucd_fragment demo_provider first_render
                (lit "   ") (lit "auto") (lit "pt") initial_state)
      as (Hblank & _ & _).
    apply Hblank. reflexivity.
  - destruct (submit_validation_order ucd_fragment demo_provider first_render
                (lit "Hello world") (lit "en") (lit "auto") initial_state)
      as (_ & Hauto & _).
    apply Hauto; reflexivity.
Defined.

Lemma echo_same_language_witness :
  on_button demo_provider true (lit "Test") (lit "en") (lit "en") initial_state
  = (Ok tt, logged initial_state
              [StInfo same_languages;
               StTextAreaDisabled (lit "Tradução") (lit "Test") 160])
  /\ on_button demo_provider true (lit "   ") (lit "en") (lit "en")
       initial_state
     = (Ok tt, logged initial_state [StWarning text_missing]).
Proof.
  assert (lit "en" <> lit "auto") as Hauto by (vm_compute; discriminate).
  split.
  - destruct (echo_same_language demo_provider (lit "Test") (lit "en")
                (lit "en") initial_state eq_refl Hauto)
      as (new & Hrun & _ & Hecho & _).
    destruct (Hecho eq_refl) as [-> _]. exact Hrun.
  - destruct (echo_same_language demo_provider (lit "   ") (lit "en")
                (lit "en") initial_state eq_refl Hauto)
      as (new & Hrun & _ & _ & Hblank).
    destruct (Hblank eq_refl) as [-> _]. exact Hrun.
Defined.

(** C2 does not extend to blank text. On a text of three spaces, with
    source and target both ["en"], the pass ends on the warning and shows no
    translation area, so the displayed output is not the input text. *)
Lemma echo_law_blank_text :
  on_button demo_provider true (lit "   ") (lit "en") (lit "en") initial_state
  = (Ok tt, logged initial_state
              [StWarning text_missing])
  /\ displayed_output
       (log (on_button demo_provider true (lit "   ") (lit "en") (lit "en")
               initial_state).2)
     <> Some (lit "   ").
Proof. split; [reflexivity|]. vm_compute. discriminate. Qed.

Lemma translate_failure_surfaced_witness :
  translate_guarded offline_provider (lit "Hello world") (lit "auto") (lit "pt")
    initial_state
  = (Ok tt, {| world := 1%nat; cache := None;
               log := generic_failure_events (lit "Hello world") (lit "auto")
                        (lit "pt") connection_error |})
  /\ main ucd_fragment offline_provider first_render initial_state
     = (Raise connection_error,
        {| world := 1%nat; cache := None;
           log := page_config_event :: header_events ++ [GtLanguagesStatic] |})
  /\ on_button offline_provider true (lit "Hello world") (lit "auto") (lit "pt")
       initial_state
     = (Ok tt, {| world := 1%nat; cache := None;
                  log := generic_failure_events (lit "Hello world")
                           (lit "auto") (lit "pt") connection_error
                         ++ footer_events |})
  /\ run_script ucd_fragment offline_provider first_render initial_state
     = {| world := 1%nat; cache := None;
          log := page_config_event :: header_events
                 ++ [GtLanguagesStatic; StException connection_error] |}
  /\ main ucd_fragment legacy_offline_provider first_render initial_state
     = (Raise connection_error,
        {| world := 2%nat; cache := None;
           log := page_config_event :: header_events
                  ++ [GtLanguagesStatic; GtLanguagesInstance] |})
  /\ run_script ucd_fragment legacy_offline_provider first_render initial_state
     = {| world := 2%nat; cache := None;
          log := page_config_event :: header_events
                 ++ [GtLanguagesStatic; GtLanguagesInstance;
                     StException connection_error] |}.
Proof.
  destruct (translate_failure_surfaced ucd_fragment offline_provider
              first_render true (lit "Hello world") (lit "auto") (lit "pt")
              initial_state connection_error missing_self 1%nat 1%nat)
    as (Hcaught & _ & Hescapes & Hfooter & Hshown & _).
  destruct (translate_failure_surfaced ucd_fragment legacy_offline_provider
              first_render true (lit "Hello world") (lit "auto") (lit "pt")
              initial_state connection_error missing_self 2%nat 1%nat)
    as (_ & _ & _ & _ & _ & Hfallback).
  split; [apply Hcaught; reflexivity|].
  split; [apply Hescapes; reflexivity|].
  split.
  { apply Hfooter; [reflexivity|reflexivity|vm_compute; discriminate|].
    left. reflexivity. }
  split; [apply Hshown; reflexivity|].
  apply Hfallback; reflexivity.
Defined.

(** C4 does not extend to the catalog load. When the provider cannot be
    reached on the first load of the page, the exception of the catalog
    call is not caught in [app.py] and leaves [main].  The runner shows it,
    but the pass has rendered no text area, no select box and no button:
    the page shows the header and the exception and offers nothing to act
    on. *)
Lemma catalog_failure_escapes :
  main ucd_fragment offline_provider first_render initial_state
  = (Raise connection_error,
     {| world := 1%nat; cache := None;
        log := page_config_event :: header_events ++ [GtLanguagesStatic] |})
  /\ log (run_script ucd_fragment offline_provider first_render initial_state)
     = page_config_event :: header_events
       ++ [GtLanguagesStatic; StException connection_error]
  /\ filter (fun e => is_input_widget e = true)
       (log (run_script ucd_fragment offline_provider first_render
               initial_state))
     = [].
Proof. repeat split; reflexivity. Qed.

(** ** The option lists *)

Section OptionLists.
Context {W : Type} (ucd : case_data) (P : provider W).

Lemma sorted_items_perm (supported : catalog) :
  sorted_items ucd supported
  ≡ₚ map (fun '(name, code) => (format_language_name ucd name, code)) supported.
Proof. apply sorted_perm. Qed.

Lemma sorted_items_codes (supported : catalog) :
  (sorted_items ucd supported).*2 ≡ₚ supported.*2.
Proof.
  rewrite sorted_items_perm.
  induction supported as [|[name code] supported IH]; simpl; [done|].
  by rewrite IH.
Qed.

(** C3, with the codes of the catalog. [build_language_options] returns the target options
    and, as origin options, the same list with the entry for automatic
    detection put in front: one entry more, the first one with the code
    ["auto"].  The target options hold an entry with the code ["auto"]
    exactly when the catalog gives that code to one of its names. *)
Theorem origin_options_prepend_auto (s s' : state W) (supported : catalog) :
  get_supported_languages P s = (Ok supported, s') ->
  exists origin target,
    build_language_options ucd P s = (Ok (origin, target), s')
    /\ origin = auto_option :: target
    /\ length origin = S (length target)
    /\ (exists label, origin !! 0%nat = Some (label, lit "auto"))
    /\ (lit "auto" ∈ target.*2 <-> lit "auto" ∈ supported.*2).
Proof.
  intros Hload.
  exists (auto_option :: sorted_items ucd supported), (sorted_items ucd supported).
  split; [by apply build_language_options_returns|].
  split; [done|]. split; [done|]. split; [by eexists|].
  by rewrite sorted_items_codes.
Qed.

(** C5. The target options are in ascending order of label, they are the
    formatted catalog entries up to order, and entries with one label stand
    in the order in which the catalog yields them.  Starting from any other
    iteration order of the catalog gives a list in ascending order with the
    same entries. *)
Theorem target_options_sorted_stable (s s' : state W) (supported : catalog) :
  get_supported_languages P s = (Ok supported, s') ->
  let formatted :=
    map (fun '(name, code) => (format_language_name ucd name, code)) supported in
  exists origin target,
    build_language_options ucd P s = (Ok (origin, target), s')
    /\ StronglySorted (key_le fst) target
    /\ target ≡ₚ formatted
    /\ (forall label,
          filter (fun o => o.1 = label) target
          = filter (fun o => o.1 = label) formatted)
    /\ (forall supported',
          supported' ≡ₚ supported ->
          StronglySorted (key_le fst) (sorted_items ucd supported')
          /\ sorted_items ucd supported' ≡ₚ target).
Proof.
  intros Hload formatted.
  exists (auto_option :: sorted_items ucd supported), (sorted_items ucd supported).
  split; [by apply build_language_options_returns|].
  split; [apply sorted_sorted|].
  split; [apply sorted_items_perm|].
  split; [intros label; apply (sorted_stable fst)|].
  intros supported' Hperm. split; [apply sorted_sorted|].
  by rewrite !sorted_items_perm, Hperm.
Qed.

End OptionLists.

Lemma origin_options_prepend_auto_witness :
  exists origin target,
    build_language_options ucd_fragment demo_provider initial_state
    = (Ok (origin, target),
       {| world := 1%nat; cache := Some demo_catalog;
          log := [GtLanguagesStatic] |})
    /\ origin = auto_option :: target
    /\ length origin = S (length target)
    /\ (exists label, origin !! 0%nat = Some (label, lit "auto"))
    /\ (lit "auto" ∈ target.*2 <-> lit "auto" ∈ demo_catalog.*2).
Proof.
  apply (origin_options_prepend_auto ucd_fragment demo_provider initial_state).
  reflexivity.
Defined.

(** C3 does not exclude the code ["auto"] from the target options. For a
    catalog that gives that code to one of its names, the entry is
    formatted and sorted like any other and is part of the target
    options. *)
Lemma target_options_with_auto_code :
  (build_language_options ucd_fragment auto_code_provider initial_state).1
  = Ok (auto_option :: [(lit "Automatic", lit "auto"); (lit "English", lit "en")],
        [(lit "Automatic", lit "auto"); (lit "English", lit "en")])
  /\ lit "auto" ∈ [(lit "Automatic", lit "auto"); (lit "English", lit "en")].*2.
Proof. split; [reflexivity|]. vm_compute. apply list_elem_of_here. Qed.

Lemma target_options_sorted_stable_witness :
  let formatted :=
    map (fun '(name, code) => (format_language_name ucd_fragment name, code))
        demo_catalog in
  exists origin target,
    build_language_options ucd_fragment demo_provider initial_state
    = (Ok (origin, target),
       {| world := 1%nat; cache := Some demo_catalog;
          log := [GtLanguagesStatic] |})
    /\ StronglySorted (key_le fst) target
    /\ target ≡ₚ formatted
    /\ (forall label,
          filter (fun o => o.1 = label) target
          = filter (fun o => o.1 = label) formatted)
    /\ (forall supported',
          supported' ≡ₚ demo_catalog ->
          StronglySorted (key_le fst) (sorted_items ucd_fragment supported')
          /\ sorted_items ucd_fragment supported' ≡ₚ target).
Proof.
  apply (target_options_sorted_stable ucd_fragment demo_provider initial_state).
  reflexivity.
Defined.

(** ** Default selections *)

Section Defaults.
Context {W : Type} (ucd : case_data) (P : provider W).

Lemma find_index_origin (target : list language_option) :
  find_index (auto_option :: target) (lit "auto") = 0%nat.
Proof. done. Qed.

(** Both select boxes are rendered, one after the other, with the indices
    that [find_index] gives for ["auto"] and ["en"]. *)
Lemma render_app_selectboxes (input : ui_input) (s s1 : state W)
    (supported : catalog) :
  get_supported_languages P (render_header s).2 = (Ok supported, s1) ->
  let target := sorted_items ucd supported in
  let origin := auto_option :: target in
  exists pre post,
    log (render_app ucd P input s).2
    = log s ++ pre
      ++ [StSelectbox (lit "Idioma de origem") origin
            (find_index origin (lit "auto"));
          StSelectbox (lit "Idioma de destino") target
            (find_index target (lit "en"))]
      ++ post.
Proof.
  intros Hload target origin.
  destruct (get_supported_languages_log P (render_header s).2)
    as (loaded & Hlog & _).
  rewrite Hload, render_header_eq in Hlog. simpl in Hlog.
  rewrite render_header_eq in Hload. simpl in Hload.
  unfold render_app.
  rewrite (bind_ok _ _ _ _ _ (render_header_eq s)).
  rewrite (bind_ok _ _ _ _ _ (build_language_options_returns ucd P _ _ _ Hload)).
  fold target. fold origin.
  rewrite !bind_emit.
  rewrite (bind_ok _ _ _ _ _ (st_selectbox_eq _ _ _ _ _)).
  destruct (picked_is_Some origin (find_index origin (lit "auto"))
              (origin_choice input)) as [[source_label source_code] ->].
  { unfold origin. rewrite find_index_origin. simpl. lia. }
  unfold unpack at 1. rewrite bind_ret.
  rewrite (bind_ok _ _ _ _ _ (st_selectbox_eq _ _ _ _ _)).
  rewrite !logged_logged.
  destruct (picked target (find_index target (lit "en")) (target_choice input))
    as [[target_label target_code]|].
  - unfold unpack. rewrite bind_ret.
    rewrite !bind_emit, !logged_logged.
    match goal with |- context [on_button P ?c ?t ?a ?b ?st] =>
      destruct (on_button_translate_calls P c t a b st) as (new & -> & _)
    end.
    unfold logged at 1. cbn [log]. rewrite Hlog.
    exists (header_events ++ loaded ++ text_input_events),
           ([StWrite (lit ""); StButton (lit "Traduzir")] ++ new).
    unfold text_input_events. rewrite <- !app_assoc. reflexivity.
  - unfold unpack. rewrite bind_raised.
    unfold logged at 1. cbn [log snd]. rewrite Hlog.
    exists (header_events ++ loaded ++ text_input_events), [].
    unfold text_input_events. rewrite <- !app_assoc. reflexivity.
Qed.

(** C8. When the catalog loads, a render pass shows the origin select box
    with the index [find_index origin_options "auto"] and the target select
    box with the index [find_index target_options "en"], and a select box
    in which nothing was picked yet returns the entry at that index.  The
    first index is 0, where the entry for automatic detection stands; the
    second is the position of the first entry with the code ["en"], found
    by scanning the list from its start, and 0 when no entry has that
    code. *)
Theorem default_selections (input : ui_input) (s s1 : state W)
    (supported : catalog) :
  get_supported_languages P (render_header s).2 = (Ok supported, s1) ->
  let target := sorted_items ucd supported in
  let origin := auto_option :: target in
  (exists pre post,
     log (render_app ucd P input s).2
     = log s ++ pre
       ++ [StSelectbox (lit "Idioma de origem") origin
             (find_index origin (lit "auto"));
           StSelectbox (lit "Idioma de destino") target
             (find_index target (lit "en"))]
       ++ post)
  /\ (forall label options index (s0 : state W),
        (st_selectbox label options index None s0).1 = Ok (options !! index))
  /\ find_index origin (lit "auto") = 0%nat
  /\ origin !! 0%nat = Some auto_option
  /\ (lit "en" ∈ target.*2 ->
      exists label,
        target !! find_index target (lit "en") = Some (label, lit "en")
        /\ forall j o, (j < find_index target (lit "en"))%nat ->
                       target !! j = Some o -> o.2 <> lit "en")
  /\ (lit "en" ∉ target.*2 -> find_index target (lit "en") = 0%nat).
Proof.
  intros Hload target origin.
  split; [by eapply render_app_selectboxes|].
  split; [done|]. split; [done|]. split; [done|].
  split; [apply find_index_present|apply find_index_from_absent].
Qed.

End Defaults.

Lemma default_selections_witness :
  let target := sorted_items ucd_fragment demo_catalog in
  let origin := auto_option :: target in
  (exists pre post,
     log (render_app ucd_fragment demo_provider first_render initial_state).2
     = log initial_state ++ pre
       ++ [StSelectbox (lit "Idioma de origem") origin
             (find_index origin (lit "auto"));
           StSelectbox (lit "Idioma de destino") target
             (find_index target (lit "en"))]
       ++ post)
  /\ (forall label options index (s0 : state nat),
        (st_selectbox label options index None s0).1 = Ok (options !! index))
  /\ find_index origin (lit "auto") = 0%nat
  /\ origin !! 0%nat = Some auto_option
  /\ (lit "en" ∈ target.*2 ->
      exists label,
        target !! find_index target (lit "en") = Some (label, lit "en")
        /\ forall j o, (j < find_index target (lit "en"))%nat ->
                       target !! j = Some o -> o.2 <> lit "en")
  /\ (lit "en" ∉ target.*2 -> find_index target (lit "en") = 0%nat).
Proof.
  apply (default_selections ucd_fragment demo_provider first_render
           initial_state
           {| world := 1%nat; cache := Some demo_catalog;
              log := header_events ++ [GtLanguagesStatic] |}).
  reflexivity.
Defined.

(** ** Further examples *)

(** Scenario 1 of the specification: "Hello world", automatic detection,
    Portuguese as the target. *)
Example hello_world_translated :
  displayed_output
    (log (main ucd_fragment demo_provider
            {| text_area_value := lit "Hello world"; origin_choice := None;
               target_choice := Some 3%nat; button_clicked := true |}
            initial_state).2)
  = Some (lit "Olá mundo").
Proof. reflexivity. Qed.

(** Two names with one label keep the order of the catalog. *)
Example sorted_items_ties :
  sorted_items ucd_fragment
    [(lit "scots_gaelic", lit "gd"); (lit "english", lit "en");
     (lit "scots gaelic", lit "gd-x")]
  = [(lit "English", lit "en"); (lit "Scots Gaelic", lit "gd");
     (lit "Scots Gaelic", lit "gd-x")].
Proof. reflexivity. Qed.

(** A provider of the old shape is served by the fallback. *)
Example legacy_provider_loads :
  get_supported_languages legacy_provider initial_state
  = (Ok demo_catalog,
     {| world := 2%nat; cache := Some demo_catalog;
        log := [GtLanguagesStatic; GtLanguagesInstance] |}).
Proof. reflexivity. Qed.

(** Before any key is pressed the default target is English. *)
Example default_target_is_english :
  picked (sorted_items ucd_fragment demo_catalog)
         (find_index (sorted_items ucd_fragment demo_catalog) (lit "en")) None
  = Some (lit "English", lit "en").
Proof. reflexivity. Qed.

(** * Further properties *)

(** ** Blank text *)

Lemma lstrip_nil (s : str) :
  lstrip s = [] <-> Forall (fun c => is_whitespace c = true) s.
Proof.
  induction s as [|c s IH]; simpl; [done|].
  destruct (is_whitespace c) eqn:Hc.
  - rewrite IH. split; [by constructor|by inversion 1].
  - split; [done|]. inversion 1; congruence.
Qed.

Lemma lstrip_head (s : str) (c : N) (r : str) :
  lstrip s = c :: r -> is_whitespace c = false.
Proof.
  induction s as [|x s IH]; simpl; [done|].
  destruct (is_whitespace x) eqn:Hx; [done|]. by intros [= <- <-].
Qed.

(** X1. The test [not text.strip()] of line 135 holds exactly for the
    texts made of white space only, the empty text among them. *)
Theorem blank_iff_all_whitespace (s : str) :
  str_is_empty (strip s) = forallb is_whitespace s.
Proof.
  unfold strip, rstrip.
  destruct (forallb is_whitespace s) eqn:Hall.
  - assert (lstrip s = []) as ->; [|done].
    apply lstrip_nil, Forall_forall. intros c Hc.
    rewrite forallb_forall in Hall. by apply Hall, list_elem_of_In.
  - destruct (lstrip s) as [|c r] eqn:Hl.
    + apply lstrip_nil in Hl. rewrite Forall_forall in Hl.
      assert (forallb is_whitespace s = true); [|congruence].
      apply forallb_forall. intros c Hc. by apply Hl, list_elem_of_In.
    + apply lstrip_head in Hl.
      destruct (lstrip (reverse (c :: r))) as [|x l] eqn:Hr.
      * apply lstrip_nil in Hr. rewrite Forall_reverse in Hr.
        inversion Hr; congruence.
      * rewrite reverse_cons. by destruct (reverse l).
Qed.

(** ** Labels *)

Lemma ascii_lower_upper c : ascii_lower (ascii_upper c) = ascii_lower c.
Proof. ascii_cases. Qed.

Lemma ascii_upper_lower c : ascii_upper (ascii_lower c) = ascii_upper c.
Proof. ascii_cases. Qed.

Lemma ascii_do_title_lower (p : bool) (s : str) :
  ascii_do_title p (map ascii_lower s) = ascii_do_title p s.
Proof.
  revert p. induction s as [|c s IH]; intros p; simpl; [done|].
  by rewrite IH, ascii_lower_idem, ascii_upper_lower, is_ascii_letter_lower.
Qed.

Lemma lower_ascii_do_title (p : bool) (s : str) :
  map ascii_lower (ascii_do_title p s) = map ascii_lower s.
Proof.
  revert p. induction s as [|c s IH]; intros p; simpl; [done|].
  rewrite IH. by destruct p; rewrite ?ascii_lower_idem, ?ascii_lower_upper.
Qed.

Lemma forallb_is_ascii (s : str) :
  forallb is_ascii s = true -> Forall (fun c => is_ascii c = true) s.
Proof.
  intros H. apply Forall_forall. intros c Hc. rewrite forallb_forall in H.
  by apply H, list_elem_of_In.
Qed.

Lemma format_language_name_ascii (ucd : case_data) (key : str) :
  basic_latin_exact ucd = true -> forallb is_ascii key = true ->
  format_language_name ucd key = ascii_do_title false (replace 0x5F 0x20 key).
Proof.
  intros Hucd Hkey. unfold format_language_name, title.
  apply do_title_ascii; [done|]. by apply replace_is_ascii, forallb_is_ascii.
Qed.

(** X2. Two ASCII names get the same label exactly when they are the same
    name up to the case of their letters and up to underscores written for
    spaces. *)
Theorem same_label_iff (ucd : case_data) (k1 k2 : str) :
  basic_latin_exact ucd = true ->
  forallb is_ascii k1 = true -> forallb is_ascii k2 = true ->
  format_language_name ucd k1 = format_language_name ucd k2
  <-> map ascii_lower (replace 0x5F 0x20 k1)
      = map ascii_lower (replace 0x5F 0x20 k2).
Proof.
  intros Hucd H1 H2. rewrite !format_language_name_ascii by done. split.
  - intros H. apply (f_equal (map ascii_lower)) in H.
    by rewrite !lower_ascii_do_title in H.
  - intros H. rewrite <- (ascii_do_title_lower false (replace _ _ k1)), H.
    apply ascii_do_title_lower.
Qed.

Lemma same_label_iff_witness :
  format_language_name ucd_fragment (lit "haitian_creole")
  = format_language_name ucd_fragment (lit "Haitian CREOLE")
  <-> map ascii_lower (replace 0x5F 0x20 (lit "haitian_creole"))
      = map ascii_lower (replace 0x5F 0x20 (lit "Haitian CREOLE")).
Proof.
  apply (same_label_iff ucd_fragment (lit "haitian_creole")
           (lit "Haitian CREOLE")); vm_compute; reflexivity.
Defined.

Lemma ascii_do_title_length (p : bool) (s : str) :
  length (ascii_do_title p s) = length s.
Proof.
  revert p. induction s as [|c s IH]; intros p; simpl; [done|]. by rewrite IH.
Qed.

Lemma ascii_do_title_cased (p : bool) (s : str) :
  title_cased p (ascii_do_title p s) = true.
Proof.
  revert p. induction s as [|c s IH]; intros p; simpl; [done|].
  apply andb_true_iff. split.
  - destruct p; ascii_cases.
  - destruct p; by rewrite ?is_ascii_letter_lower, ?is_ascii_letter_upper.
Qed.

(** X3. The label of an ASCII name has as many characters as the name, is
    ASCII, holds no underscore, and is in title case: a capital or a
    character without case where a word starts, no capital after a
    letter. *)
Theorem format_language_name_shape (ucd : case_data) (key : str) :
  basic_latin_exact ucd = true -> forallb is_ascii key = true ->
  length (format_language_name ucd key) = length key
  /\ forallb is_ascii (format_language_name ucd key) = true
  /\ (0x5F ∉ format_language_name ucd key)
  /\ title_cased false (format_language_name ucd key) = true.
Proof.
  intros Hucd Hkey. rewrite format_language_name_ascii by done.
  split; [|split; [|split]].
  - rewrite ascii_do_title_length. unfold replace. by rewrite length_map.
  - apply forallb_forall. intros c Hc. apply list_elem_of_In in Hc.
    pose proof (ascii_do_title_is_ascii false _
                  (replace_is_ascii _ (forallb_is_ascii _ Hkey))) as Ha.
    rewrite Forall_forall in Ha. by apply Ha.
  - intros Hin.
    pose proof (ascii_do_title_no_underscore false _
                  (replace_underscore_gone key)) as Hn.
    rewrite Forall_forall in Hn. by apply (Hn _ Hin).
  - apply ascii_do_title_cased.
Qed.

Lemma format_language_name_shape_witness :
  length (format_language_name ucd_fragment (lit "chinese_(simplified)"))
  = length (lit "chinese_(simplified)")
  /\ forallb is_ascii
       (format_language_name ucd_fragment (lit "chinese_(simplified)")) = true
  /\ (0x5F ∉ format_language_name ucd_fragment (lit "chinese_(simplified)"))
  /\ title_cased false
       (format_language_name ucd_fragment (lit "chinese_(simplified)")) = true.
Proof.
  apply (format_language_name_shape ucd_fragment (lit "chinese_(simplified)"));
    vm_compute; reflexivity.
Defined.

(** ** The entries of the option lists *)

Section SortedUnique.
Context {A : Type} (key : A -> str).

(** Two sorted lists with the same elements are one list when no two
    elements have the same key. *)
Lemma sorted_by_key_unique (l1 l2 : list A) :
  StronglySorted (key_le key) l1 -> StronglySorted (key_le key) l2 ->
  l1 ≡ₚ l2 -> NoDup (map key l1) -> l1 = l2.
Proof.
  intros H1. revert l2. induction H1 as [|x l1 Hs1 IH Hx]; intros l2 H2 Hp Hn.
  - by apply Permutation_nil_l in Hp.
  - destruct H2 as [|y l2 Hs2 Hy].
    { by apply Permutation_nil_r in Hp. }
    simpl in Hn. apply NoDup_cons in Hn as [Hxn Hn].
    assert (x = y) as <-.
    { assert (x ∈ y :: l2) as Hxin by (rewrite <- Hp; left).
      assert (y ∈ x :: l1) as Hyin by (rewrite Hp; left).
      apply elem_of_cons in Hxin as [?|Hxin]; [done|].
      apply elem_of_cons in Hyin as [?|Hyin]; [done|].
      rewrite Forall_forall in Hx, Hy.
      pose proof (Hx _ Hyin) as Hxy. pose proof (Hy _ Hxin) as Hyx.
      unfold key_le in *.
      assert (key x = key y) as Hk by by apply str_ltb_total.
      exfalso. apply Hxn. rewrite Hk. apply list_elem_of_fmap. by exists y. }
    f_equal. apply IH; [done| |done]. by apply (inj (cons x)).
Qed.

End SortedUnique.

(** X4. The sorted items have one entry for each entry of the catalog: as
    many entries, the same codes as often, and a pair of a label and a
    code is among them exactly when the catalog gives that code to a name
    with that label.  None is dropped and none is merged with another. *)
Theorem target_options_entries (ucd : case_data) (supported : catalog) :
  length (sorted_items ucd supported) = length supported
  /\ (sorted_items ucd supported).*2 ≡ₚ supported.*2
  /\ forall label code,
       (label, code) ∈ sorted_items ucd supported
       <-> exists name, (name, code) ∈ supported
                        /\ label = format_language_name ucd name.
Proof.
  split; [|split].
  - rewrite (sorted_items_perm ucd supported). by rewrite length_map.
  - apply sorted_items_codes.
  - intros label code. rewrite (sorted_items_perm ucd supported).
    rewrite list_elem_of_fmap. split.
    + intros ([name c] & [= -> ->] & Hin). by exists name.
    + intros (name & Hin & ->). by exists (name, code).
Qed.

(** X5. When no two names of the catalog have the same label, the sorted
    items do not depend on the order in which the catalog yields its
    entries. *)
Theorem target_options_order_independent (ucd : case_data)
    (supported supported' : catalog) :
  supported' ≡ₚ supported ->
  NoDup (map (format_language_name ucd) supported.*1) ->
  sorted_items ucd supported' = sorted_items ucd supported.
Proof.
  intros Hp Hn. apply (sorted_by_key_unique fst).
  - apply sorted_sorted.
  - apply sorted_sorted.
  - by rewrite !sorted_items_perm, Hp.
  - rewrite (sorted_items_perm ucd supported'), Hp.
    rewrite <- list_fmap_compose.
    replace (map (format_language_name ucd) supported.*1)
      with (map (fst ∘ (fun '(name, code) =>
                          (format_language_name ucd name, code))) supported)
      in Hn; [done|].
    rewrite <- list_fmap_compose. apply list_fmap_ext.
    by intros i [name code] _.
Qed.

Lemma target_options_order_independent_witness :
  sorted_items ucd_fragment
    [(lit "english", lit "en"); (lit "portuguese", lit "pt");
     (lit "haitian creole", lit "ht"); (lit "chinese (simplified)", lit "zh-CN")]
  = sorted_items ucd_fragment demo_catalog.
Proof.
  apply (target_options_order_independent ucd_fragment demo_catalog).
  - apply perm_swap.
  - apply (bool_decide_unpack _). vm_compute. exact I.
Defined.

(** ** The passes of the page *)

Section Passes.
Context {W : Type} (ucd : case_data) (P : provider W).

Ltac emits_step :=
  first
    [ apply emits_only_bind; [|intros ?]
    | apply emits_only_try_except; [|intros ?]
    | apply emits_only_cache_data
    | apply emits_only_emit; done
    | apply emits_only_call; done
    | apply emits_only_ret
    | apply emits_only_raise ].

(** X6. A submission that passes the three tests, answered by the provider
    with [translated], logs the spinner, one translate call for the text
    and the two codes as given, the success message, the translation area
    holding [translated] unchanged, and the footer; the world is the one
    the provider left. *)
Theorem translation_displayed (text source target translated : str)
    (s : state W) (w : W) :
  str_is_empty (strip text) = false ->
  target <> lit "auto" ->
  source = lit "auto" \/ source <> target ->
  translate P text source target (world s) = (Ok translated, w) ->
  on_button P true text source target s
  = (Ok tt, {| world := w; cache := cache s;
               log := log s ++ success_events text source target translated
                            ++ footer_events |})
  /\ displayed_output (success_events text source target translated
                       ++ footer_events) = Some translated.
Proof.
  intros Hblank Hauto Hsame Ht. split; [|done].
  unfold on_button. rewrite Hblank.
  apply str_eqb_false in Hauto. rewrite Hauto.
  assert (negb (str_eqb source (lit "auto")) && str_eqb source target = false)
    as ->.
  { apply andb_false_iff. destruct Hsame as [->|Hne].
    - left. apply negb_false_iff. by apply str_eqb_true.
    - right. by apply str_eqb_false. }
  unfold translate_guarded, try_except, translate_text, render_footer, bind,
    call, emit. simpl. rewrite Ht. simpl.
  unfold success_events, footer_events. by rewrite <- !app_assoc.
Qed.

(** X7. In a pass in which the button is not pressed, [app.py] makes no
    translate call and shows neither a translation nor a warning, an error
    or an exception of its own, whatever is typed and picked and whatever
    the provider does.  Such a pass can still end in an exception (a
    catalog load that fails, an empty catalog); the page then shows that
    exception, put there by the runner, and otherwise nothing but what the
    pass rendered. *)
Theorem idle_pass (input : ui_input) (s : state W) :
  button_clicked input = false ->
  exists new,
    log (main ucd P input s).2 = log s ++ new
    /\ Forall idle_event new
    /\ log (run_script ucd P input s)
       = log s ++ new ++ match (main ucd P input s).1 with
                         | Ok _ => []
                         | Raise e => [StException e]
                         end.
Proof.
  intros Hb.
  assert (emits_only idle_event (main ucd P input)) as H.
  { unfold main, render_app, configure_page, render_header,
      build_language_options, get_supported_languages,
      get_supported_languages_body, st_selectbox, unpack. rewrite Hb.
    unfold on_button, render_footer.
    repeat (repeat emits_step; repeat case_match). }
  destruct (H s) as (new & Hlog & Hidle). exists new.
  split; [done|]. split; [done|].
  unfold run_script. destruct (main ucd P input s) as [[[]|e] s'];
    simpl in *; rewrite Hlog.
  - by rewrite app_nil_r.
  - by rewrite app_assoc.
Qed.

(** What follows the button makes at most one translate call, for the text
    and the codes it was given. *)
Lemma on_button_calls_once (clicked : bool) (text source target : str)
    (s : state W) :
  exists new,
    log (on_button P clicked text source target s).2 = log s ++ new
    /\ (translate_calls new <= 1)%nat
    /\ Forall (call_of text source target) new.
Proof.
  unfold on_button, translate_guarded, try_except, translate_text,
    render_footer, bind, call, emit.
  repeat case_match; simplify_eq/=; rewrite <- ?app_assoc; simpl;
    eexists; (split; [reflexivity|]); (split; [vm_compute; lia|]);
    repeat constructor.
Qed.

Lemma emits_only_then {A B} (Q : event -> Prop) (R : list event -> Prop)
    (m : M W A) (k : A -> M W B) :
  R [] ->
  (forall n1 n2, Forall Q n1 -> R n2 -> R (n1 ++ n2)) ->
  emits_only Q m -> (forall a, emits R (k a)) -> emits R (bind m k).
Proof.
  intros Hnil Happ Hm Hk s. unfold bind. destruct (Hm s) as (n1 & Hl1 & HQ).
  destruct (m s) as [[a|e] s']; simpl in *.
  - destruct (Hk a s') as (n2 & Hl2 & HR). exists (n1 ++ n2).
    rewrite Hl2, Hl1, app_assoc. split; [done|]. by apply Happ.
  - exists n1. split; [done|]. rewrite <- (app_nil_r n1). by apply Happ.
Qed.

Lemma translate_calls_app (n1 n2 : list event) :
  Forall (fun e => is_translate_call e = false) n1 ->
  translate_calls (n1 ++ n2) = translate_calls n2.
Proof.
  intros H. unfold translate_calls. rewrite filter_app, length_app.
  induction H as [|e n1 He H IH]; simpl; [done|].
  rewrite filter_cons_False by congruence. done.
Qed.

Ltac prefix_step :=
  apply (emits_only_then (fun e => is_translate_call e = false));
  [ vm_compute; lia
  | by intros n1 n2 Hn1 Hn2; rewrite translate_calls_app
  | unfold configure_page, render_header, build_language_options,
      get_supported_languages, get_supported_languages_body,
      st_selectbox, unpack;
    repeat (repeat emits_step; repeat case_match)
  | ].

(** X8. A pass makes at most one translate call, whatever the input and
    the provider. *)
Theorem one_translate_call_per_pass (input : ui_input) (s : state W) :
  exists new,
    log (main ucd P input s).2 = log s ++ new
    /\ (translate_calls new <= 1)%nat.
Proof.
  assert (emits (fun new => (translate_calls new <= 1)%nat) (main ucd P input))
    as H; [|apply H].
  unfold main, render_app.
  prefix_step; intros _.
  prefix_step; intros _.
  prefix_step; intros [origin_options target_options].
  do 4 (prefix_step; intros _).
  prefix_step; intros source.
  prefix_step; intros [source_label source_code].
  prefix_step; intros target.
  prefix_step; intros [target_label target_code].
  do 2 (prefix_step; intros _).
  intros s0. destruct (on_button_calls_once (button_clicked input)
    (text_area_value input) source_code target_code s0)
    as (new & Hl & Hc & _). by exists new.
Qed.

Lemma picked_elem (options : list language_option) (index : nat)
    (choice : option nat) (o : language_option) :
  picked options index choice = Some o -> o ∈ options.
Proof.
  unfold picked. intros H. repeat case_match;
    by eapply list_elem_of_lookup_2.
Qed.

Lemma find_index_bound (options : list language_option) (code : str) :
  options <> [] -> (find_index options code < length options)%nat.
Proof.
  intros Hne. destruct (decide (code ∈ options.*2)) as [Hin|Hn].
  - destruct (find_index_present options code Hin) as (label & Hl & _).
    by eapply lookup_lt_Some.
  - unfold find_index. rewrite find_index_from_absent by done.
    destruct options; [done|simpl; lia].
Qed.

Lemma get_supported_languages_emits (Q : event -> Prop) :
  Q GtLanguagesStatic -> Q GtLanguagesInstance ->
  emits_only Q (get_supported_languages P).
Proof.
  intros H1 H2. unfold get_supported_languages, get_supported_languages_body.
  repeat emits_step.
Qed.

(** How a pass goes on once the catalog is loaded: the origin select box
    returns an entry of the origin options, and the pass either stops at
    the target select box for want of an entry or runs the code behind the
    button on the codes of the two entries. *)
Lemma render_app_reaches_button (input : ui_input) (s s1 : state W)
    (supported : catalog) :
  get_supported_languages P (render_header s).2 = (Ok supported, s1) ->
  let target := sorted_items ucd supported in
  let origin := auto_option :: target in
  let boxes :=
    [StSelectbox (lit "Idioma de origem") origin
       (find_index origin (lit "auto"));
     StSelectbox (lit "Idioma de destino") target
       (find_index target (lit "en"))] in
  exists source,
    source ∈ origin
    /\ match picked target (find_index target (lit "en")) (target_choice input) with
       | Some chosen =>
         render_app ucd P input s
         = on_button P (button_clicked input) (text_area_value input)
             source.2 chosen.2
             (logged s1 (text_input_events ++ boxes
                         ++ [StWrite (lit ""); StButton (lit "Traduzir")]))
       | None =>
         render_app ucd P input s
         = (Raise (Exn true (lit "cannot unpack non-iterable NoneType object")),
            logged s1 (text_input_events ++ boxes))
       end.
Proof.
  intros Hload target origin boxes.
  rewrite render_header_eq in Hload. simpl in Hload.
  destruct (picked_is_Some origin (find_index origin (lit "auto"))
              (origin_choice input)) as [[source_label source_code] Hsrc].
  { unfold origin. rewrite find_index_origin. simpl. lia. }
  exists (source_label, source_code).
  split; [by eapply picked_elem|].
  destruct (picked target (find_index target (lit "en")) (target_choice input))
    as [[target_label target_code]|] eqn:Htgt;
    unfold render_app;
    rewrite (bind_ok _ _ _ _ _ (render_header_eq s));
    rewrite (bind_ok _ _ _ _ _
               (build_language_options_returns ucd P _ _ _ Hload));
    fold target; fold origin;
    rewrite !bind_emit;
    rewrite (bind_ok _ _ _ _ _ (st_selectbox_eq _ _ _ _ _)), Hsrc;
    unfold unpack at 1; rewrite bind_ret;
    rewrite (bind_ok _ _ _ _ _ (st_selectbox_eq _ _ _ _ _)), Htgt;
    rewrite !logged_logged; unfold unpack.
  - rewrite bind_ret, !bind_emit, !logged_logged.
    unfold text_input_events, boxes. by rewrite <- !app_assoc.
  - rewrite bind_raised.
    unfold text_input_events, boxes. by rewrite <- ?app_assoc.
Qed.

(** X9. Once the catalog is loaded, a translate call of the pass has for
    target a code of the catalog and for source ["auto"] or a code of the
    catalog: the provider is never asked for a language it did not list. *)
Theorem translate_codes_offered (input : ui_input) (s s1 : state W)
    (supported : catalog) :
  get_supported_languages P (render_header s).2 = (Ok supported, s1) ->
  exists new,
    log (render_app ucd P input s).2 = log s ++ new
    /\ Forall (codes_offered supported) new.
Proof.
  intros Hload.
  destruct (get_supported_languages_emits (codes_offered supported) I I
              (render_header s).2) as (loaded & Hlog & Hloaded).
  rewrite Hload, render_header_eq in Hlog. simpl in Hlog.
  destruct (render_app_reaches_button input s s1 supported Hload)
    as ([source_label source_code] & Hsrc & Hrun).
  destruct (picked _ _ (target_choice input))
    as [[target_label target_code]|] eqn:Htgt; rewrite Hrun; clear Hrun.
  - match goal with |- context [on_button P ?c ?t ?a ?b ?st] =>
      destruct (on_button_calls_once c t a b st) as (new & -> & _ & Hcall)
    end.
    simpl. rewrite Hlog. eexists. rewrite <- !app_assoc.
    split; [reflexivity|].
    repeat (apply Forall_app; split); try done; try (repeat constructor).
    eapply Forall_impl; [exact Hcall|]. intros [] He; try done.
    simpl in *. destruct He as (_ & -> & ->). split.
    + apply elem_of_cons in Hsrc as [[= _ ->]|Hsrc]; [by left|right].
      rewrite <- (sorted_items_codes ucd supported).
      apply list_elem_of_fmap. by exists (source_label, source_code).
    + apply picked_elem in Htgt.
      rewrite <- (sorted_items_codes ucd supported).
      apply list_elem_of_fmap. by exists (target_label, target_code).
  - simpl. rewrite Hlog. eexists. rewrite <- !app_assoc.
    split; [reflexivity|].
    repeat (apply Forall_app; split); try done; repeat constructor.
Qed.

(** X10. Once the catalog is loaded, [render_app] ends without an
    exception when the catalog has an entry, whatever the user and the
    provider do.  On an empty catalog the target select box has nothing to
    return: unpacking its value raises a [TypeError] right after the two
    select boxes, before the button is rendered. *)
Theorem pass_completes_iff_catalog (input : ui_input) (s s1 : state W)
    (supported : catalog) :
  get_supported_languages P (render_header s).2 = (Ok supported, s1) ->
  (supported <> [] -> (render_app ucd P input s).1 = Ok tt)
  /\ (supported = [] ->
      render_app ucd P input s
      = (Raise (Exn true (lit "cannot unpack non-iterable NoneType object")),
         logged s1
           (text_input_events
            ++ [StSelectbox (lit "Idioma de origem") [auto_option] 0;
                StSelectbox (lit "Idioma de destino") [] 0]))).
Proof.
  intros Hload.
  destruct (render_app_reaches_button input s s1 supported Hload)
    as (source & _ & Hrun).
  split.
  - intros Hne.
    destruct (picked_is_Some (sorted_items ucd supported)
                (find_index (sorted_items ucd supported) (lit "en"))
                (target_choice input)) as [chosen Hc].
    { apply find_index_bound. intros Hnil.
      apply (f_equal length) in Hnil.
      rewrite (sorted_items_perm ucd supported), length_map in Hnil.
      by destruct supported. }
    rewrite Hc in Hrun. rewrite Hrun. apply on_button_ok.
  - intros ->.
    assert (picked (sorted_items ucd []) (find_index (sorted_items ucd [])
              (lit "en")) (target_choice input) = None) as Hnone.
    { unfold picked. by repeat case_match. }
    rewrite Hnone in Hrun. exact Hrun.
Qed.

(** X11. A load that raises stores nothing: the cache is empty afterwards,
    and the next call of the loader goes to the provider again, the
    class-level accessor first. *)
Theorem failed_load_retried (s s' : state W) (e : exn) :
  get_supported_languages P s = (Raise e, s') ->
  cache s' = None
  /\ exists new,
       log (get_supported_languages P s').2
       = log s' ++ GtLanguagesStatic :: new.
Proof.
  unfold get_supported_languages, cache_data.
  destruct (cache s) eqn:Hc; [done|].
  destruct (get_supported_languages_body P s) as [[d|e0] s0] eqn:Hbody;
    [done|].
  intros [= -> ->].
  assert (cache s' = None) as Hc'.
  { revert Hbody. unfold get_supported_languages_body, try_except, call.
    repeat case_match; intros; simplify_eq/=; done. }
  split; [done|]. rewrite Hc'.
  unfold get_supported_languages_body, try_except, call.
  repeat case_match; simplify_eq/=; rewrite <- ?app_assoc; by eexists.
Qed.

End Passes.

Lemma translation_displayed_witness :
  on_button demo_provider true (lit "Hello world") (lit "auto") (lit "pt")
    initial_state
  = (Ok tt, {| world := 1%nat; cache := None;
               log := [] ++ success_events (lit "Hello world") (lit "auto")
                               (lit "pt") (lit "Olá mundo")
                         ++ footer_events |})
  /\ displayed_output (success_events (lit "Hello world") (lit "auto")
                         (lit "pt") (lit "Olá mundo") ++ footer_events)
     = Some (lit "Olá mundo").
Proof.
  apply (translation_displayed demo_provider (lit "Hello world") (lit "auto")
           (lit "pt") (lit "Olá mundo") initial_state 1%nat).
  - reflexivity.
  - vm_compute. discriminate.
  - left. reflexivity.
  - reflexivity.
Defined.

Lemma idle_pass_witness :
  (exists new,
     log (main ucd_fragment demo_provider first_render initial_state).2
     = log initial_state ++ new
     /\ Forall idle_event new
     /\ log (run_script ucd_fragment demo_provider first_render initial_state)
        = log initial_state ++ new
          ++ match (main ucd_fragment demo_provider first_render
                      initial_state).1 with
             | Ok _ => []
             | Raise e => [StException e]
             end)
  /\ (exists new,
       log (main ucd_fragment offline_provider first_render initial_state).2
       = log initial_state ++ new
       /\ Forall idle_event new
       /\ log (run_script ucd_fragment offline_provider first_render
                 initial_state)
          = log initial_state ++ new
            ++ match (main ucd_fragment offline_provider first_render
                        initial_state).1 with
               | Ok _ => []
               | Raise e => [StException e]
               end).
Proof.
  split.
  - apply (idle_pass ucd_fragment demo_provider first_render initial_state).
    reflexivity.
  - apply (idle_pass ucd_fragment offline_provider first_render initial_state).
    reflexivity.
Defined.

Lemma translate_codes_offered_witness :
  exists new,
    log (render_app ucd_fragment demo_provider
           {| text_area_value := lit "Hello world"; origin_choice := Some 2%nat;
              target_choice := Some 3%nat; button_clicked := true |}
           initial_state).2
    = log initial_state ++ new
    /\ Forall (codes_offered demo_catalog) new.
Proof.
  apply (translate_codes_offered ucd_fragment demo_provider _ initial_state
           {| world := 1%nat; cache := Some demo_catalog;
              log := header_events ++ [GtLanguagesStatic] |}).
  reflexivity.
Defined.

Lemma pass_completes_iff_catalog_witness :
  (render_app ucd_fragment demo_provider first_render initial_state).1 = Ok tt
  /\ render_app ucd_fragment empty_catalog_provider first_render initial_state
     = (Raise (Exn true (lit "cannot unpack non-iterable NoneType object")),
        logged {| world := 1%nat; cache := Some [];
                  log := header_events ++ [GtLanguagesStatic] |}
          (text_input_events
           ++ [StSelectbox (lit "Idioma de origem") [auto_option] 0;
               StSelectbox (lit "Idioma de destino") [] 0])).
Proof.
  split.
  - destruct (pass_completes_iff_catalog ucd_fragment demo_provider first_render
                initial_state
                {| world := 1%nat; cache := Some demo_catalog;
                   log := header_events ++ [GtLanguagesStatic] |}
                demo_catalog eq_refl) as [Hfull _].
    apply Hfull. discriminate.
  - destruct (pass_completes_iff_catalog ucd_fragment empty_catalog_provider
                first_render initial_state
                {| world := 1%nat; cache := Some [];
                   log := header_events ++ [GtLanguagesStatic] |}
                [] eq_refl) as [_ Hempty].
    apply Hempty. reflexivity.
Defined.

Lemma failed_load_retried_witness :
  cache (get_supported_languages offline_provider initial_state).2 = None
  /\ exists new,
       log (get_supported_languages offline_provider
              (get_supported_languages offline_provider initial_state).2).2
       = log (get_supported_languages offline_provider initial_state).2
         ++ GtLanguagesStatic :: new.
Proof.
  apply (failed_load_retried offline_provider initial_state _ connection_error).
  reflexivity.
Defined.
